(** * gpt-embeddings: the text-splitting utilities of [utils.py]

    A shallow embedding of [halved_by_delimiter], [truncated_string],
    [split_strings_from_subsection], [split_into_sections],
    [parse_and_join_ans] and [split_into_qa_pairs], and the properties the
    specification states about them.

    Python values are modelled as follows.
    - [str] is a list of Unicode code points ([N]); slicing and
      [startswith] therefore count characters, as Python does.
    - [int] is [Z].
    - The tokenizer ([tiktoken]) and the Unicode character database behind
      [str.strip], [str.isnumeric] and [int] are libraries, not code of the
      repository: they are parameters ([encoding_for_model], [Ucd]).
    - The functions that count tokens are given twice.  Over an [Encoding],
      the tokenizer on the models and texts it accepts, they say what the
      code computes.  In [Raising], over a [Tokenizer] that raises as
      [tiktoken] does, they say whether the code returns; what it returns
      there is what the first definitions compute ([raising_refines]).
    - An exception is a value of [error]; a function that can raise returns
      [res]. *)

From Stdlib Require Import String Ascii.
From Stdlib Require Import List ZArith NArith Lia Bool PeanoNat.
From Stdlib Require Import DecimalZ Sorted.
Import ListNotations.

(** ** Exceptions *)

Inductive error : Type :=
| ValueError          (* [str.split] with an empty separator, [int] on a string it
                         cannot read, [encode] on text that spells a special token *)
| KeyError            (* [tiktoken.encoding_for_model] on a model it does not know *)
| UnboundLocalError   (* a loop variable read after a loop that never ran *)
| AttributeError      (* a method called on [None] *)
| OutOfFuel.          (* not a Python exception: the recursion budget of the model ran out *)

Inductive res (A : Type) : Type :=
| Ok (a : A)
| Raise (e : error).

Arguments Ok {A} a.
Arguments Raise {A} e.

Definition bind {A B : Type} (m : res A) (k : A -> res B) : res B :=
  match m with
  | Ok a => k a
  | Raise e => Raise e
  end.

Notation "x <- m ;; k" := (bind m (fun x => k))
  (at level 61, m at next level, right associativity).

(** ** Python strings *)

Module PyStr.

Definition char : Type := N.
Definition str : Type := list char.

(** An ASCII literal as a [str]. *)
Definition lit (s : String.string) : str :=
  map Ascii.N_of_ascii (String.list_ascii_of_string s).
Arguments lit s%_string.

Definition LF : char := 10%N.
Definition TAB : char := 9%N.
Definition EM_SPACE : char := 8195%N.   (* U+2003 *)

(** A literal followed by a newline, as [readlines] yields it. *)
Definition line (s : String.string) : str := lit s ++ [LF].
Arguments line s%_string.

Fixpoint eqb (a b : str) : bool :=
  match a, b with
  | [], [] => true
  | x :: a', y :: b' => N.eqb x y && eqb a' b'
  | _, _ => false
  end.

(** [s.startswith(p)] *)
Fixpoint startswith (s p : str) {struct p} : bool :=
  match p, s with
  | [], _ => true
  | _ :: _, [] => false
  | y :: p', x :: s' => N.eqb x y && startswith s' p'
  end.

(** [s.find(sep)]: the least index at which [sep] occurs in [s]. *)
Fixpoint find (s sep : str) : option nat :=
  if startswith s sep then Some 0
  else match s with
       | [] => None
       | _ :: s' => option_map S (find s' sep)
       end.

(** The loop of [s.split(sep)] for a non-empty [sep]: cut at the leftmost
    occurrence, go on after it.  [fuel] bounds the number of cuts; a
    string has at most [length s] of them. *)
Fixpoint split_loop (fuel : nat) (s sep : str) : list str :=
  match fuel with
  | 0 => [s]
  | S fuel' =>
      match find s sep with
      | None => [s]
      | Some i => firstn i s :: split_loop fuel' (skipn (i + length sep) s) sep
      end
  end.

(** [s.split(sep)]; an empty separator raises [ValueError]. *)
Definition split (s sep : str) : res (list str) :=
  match sep with
  | [] => Raise ValueError
  | _ :: _ => Ok (split_loop (length s) s sep)
  end.

(** [sep.join(parts)] *)
Fixpoint join (sep : str) (parts : list str) : str :=
  match parts with
  | [] => []
  | [p] => p
  | p :: rest => p ++ sep ++ join sep rest
  end.

(** [x in xs] for a list of strings. *)
Definition mem (x : str) (xs : list str) : bool := existsb (eqb x) xs.

End PyStr.

Import PyStr.

(** [l[:n]] for a Python list: a negative [n] counts from the end. *)
Definition slice_to {A : Type} (l : list A) (n : Z) : list A :=
  if (n <? 0)%Z
  then firstn (Z.to_nat (Z.of_nat (length l) + n)) l
  else firstn (Z.to_nat n) l.

(** [s[n:]] for a Python string and a literal [n >= 0]. *)
Definition slice_from (s : str) (n : nat) : str := skipn n s.

(** ** The tokenizer

    [tiktoken.encoding_for_model(model)] returns an object with [encode] and
    [decode].  The library is not part of the repository: the map from model
    names to encodings is a parameter of everything below.  There a model
    name the library does not know raises [KeyError], and text that spells
    a special token raises [ValueError]: an [Encoding] is the tokenizer on
    the models and texts it accepts, and the definitions of this part say
    what the functions compute on those.  [Raising], further down, has the
    same functions with the two exceptions. *)

Record Encoding : Type := {
  encode : str -> list Z;
  decode : list Z -> str
}.

Definition GPT_MODEL : str := lit "gpt-3.5-turbo".

(** The delimiters [split_strings_from_subsection] tries, in order. *)
Definition PARAGRAPH : str := [LF; LF].
Definition NEWLINE : str := [LF].
Definition SENTENCE : str := lit ". ".

(** What a run of [split_strings_from_subsection] did, call by call: the
    strings it returned are the leaves, from left to right. *)
Inductive chunking : Type :=
| Fits (string : str)
| Truncated (string chunk : str)
| Halved (delimiter : str) (left right : chunking).

Fixpoint chunks_of (t : chunking) : list str :=
  match t with
  | Fits string => [string]
  | Truncated _ chunk => [chunk]
  | Halved _ l r => chunks_of l ++ chunks_of r
  end.

Fixpoint no_truncation (t : chunking) : Prop :=
  match t with
  | Fits _ => True
  | Truncated _ _ => False
  | Halved _ l r => no_truncation l /\ no_truncation r
  end.

Section Chunker.

Variable encoding_for_model : str -> Encoding.

(** [num_tokens(text, model=GPT_MODEL)] *)
Definition num_tokens (text model : str) : Z :=
  let encoding := encoding_for_model model in
  Z.of_nat (length (encode encoding text)).

(** The [for i, chunk in enumerate(chunks)] loop of [halved_by_delimiter]:
    [todo] is what [enumerate] has not yielded yet, [i] the index of its
    head.  The result is the value of [i] after the loop: the index at which
    it broke, or the last index when it ran to the end. *)
Fixpoint halfway_scan (chunks : list str) (delimiter : str) (halfway : Z)
    (todo : list str) (i : nat) (best_diff : Z) : nat :=
  match todo with
  | [] => Nat.pred i
  | _ :: todo' =>
      let left := join delimiter (firstn (i + 1) chunks) in
      let left_tokens := num_tokens left GPT_MODEL in
      let diff := Z.abs (halfway - left_tokens) in
      if (diff >=? best_diff)%Z then i
      else halfway_scan chunks delimiter halfway todo' (S i) diff
  end.

(** The difference the loop computes at index [k]. *)
Definition scan_diff (chunks : list str) (delimiter : str) (halfway : Z)
    (k : nat) : Z :=
  Z.abs (halfway - num_tokens (join delimiter (firstn (k + 1) chunks)) GPT_MODEL).

(** [best_diff] when the loop, started at index [i] with [best], reaches
    index [k]: every index it passed replaced it by its own difference. *)
Definition scan_best (chunks : list str) (delimiter : str) (halfway : Z)
    (i : nat) (best : Z) (k : nat) : Z :=
  if Nat.eqb k i then best else scan_diff chunks delimiter halfway (Nat.pred k).

(** The best difference so far at index [k], in the specification's words:
    the least of the initial [halfway] and the differences before [k]. *)
Fixpoint best_so_far (chunks : list str) (delimiter : str) (halfway : Z)
    (k : nat) : Z :=
  match k with
  | 0 => halfway
  | S k' => Z.min (best_so_far chunks delimiter halfway k')
                  (scan_diff chunks delimiter halfway k')
  end.

(** The index the loop of [halved_by_delimiter] leaves in [i]. *)
Definition stop_index (string delimiter : str) (chunks : list str) : nat :=
  let total_tokens := num_tokens string GPT_MODEL in
  let halfway := (total_tokens / 2)%Z in
  halfway_scan chunks delimiter halfway chunks 0 halfway.

(** [halved_by_delimiter(string, delimiter)] *)
Definition halved_by_delimiter (string delimiter : str) : res (str * str) :=
  chunks <- split string delimiter ;;
  match chunks with
  | [] => Raise UnboundLocalError      (* [i] unbound; [split] never returns [[]] *)
  | [_] => Ok (string, [])
  | [a; b] => Ok (a, b)
  | _ =>
      let i := stop_index string delimiter chunks in
      let left := join delimiter (firstn i chunks) in
      let right := join delimiter (skipn i chunks) in
      Ok (left, right)
  end.

(** [truncated_string(string, model, max_tokens)]; the warning it prints
    when tokens were cut off is not part of the returned value. *)
Definition truncated_string (string model : str) (max_tokens : Z) : str :=
  let encoding := encoding_for_model model in
  let encoded_string := encode encoding string in
  decode encoding (slice_to encoded_string max_tokens).

(** The [for delimiter in ...] loop of [split_strings_from_subsection];
    [recurse half] is the recursive call on [(titles, half)], [fallback] what
    the function returns when the loop ends without a usable split. *)
Fixpoint try_delimiters (text : str) (recurse : str -> res (list str))
    (fallback : list str) (delimiters : list str) : res (list str) :=
  match delimiters with
  | [] => Ok fallback
  | delimiter :: delimiters' =>
      halves <- halved_by_delimiter text delimiter ;;
      let left := fst halves in
      let right := snd halves in
      if eqb left [] || eqb right []
      then try_delimiters text recurse fallback delimiters'
      else
        left_strings <- recurse left ;;
        right_strings <- recurse right ;;
        Ok (left_strings ++ right_strings)
  end.

(** [split_strings_from_subsection(subsection, max_tokens, model,
    max_recursion)], with a bound [fuel] on the depth of the recursion. *)
Fixpoint split_strings_fuel (fuel : nat) (subsection : list str * str)
    (max_tokens : Z) (model : str) (max_recursion : Z) : res (list str) :=
  match fuel with
  | 0 => Raise OutOfFuel
  | S fuel' =>
      let '(titles, text) := subsection in
      let string := join PARAGRAPH (titles ++ [text]) in
      let num_tokens_in_string := num_tokens string GPT_MODEL in
      if (num_tokens_in_string <=? max_tokens)%Z then Ok [string]
      else if (max_recursion =? 0)%Z
      then Ok [truncated_string string model max_tokens]
      else
        try_delimiters text
          (fun half =>
             split_strings_fuel fuel' (titles, half) max_tokens model
               (max_recursion - 1))
          [truncated_string string model max_tokens]
          [PARAGRAPH; NEWLINE; SENTENCE]
  end.

(** Every recursive call is on a shorter text, so [length text + 1] levels
    are enough whatever [max_recursion] is ([split_strings_total]). *)
Definition split_strings_from_subsection (subsection : list str * str)
    (max_tokens : Z) (model : str) (max_recursion : Z) : res (list str) :=
  split_strings_fuel (S (length (snd subsection))) subsection
    max_tokens model max_recursion.

(** The same run, recording what each call did. *)
Fixpoint try_delimiters_chunking (text : str) (recurse : str -> res chunking)
    (fallback : chunking) (delimiters : list str) : res chunking :=
  match delimiters with
  | [] => Ok fallback
  | delimiter :: delimiters' =>
      halves <- halved_by_delimiter text delimiter ;;
      let left := fst halves in
      let right := snd halves in
      if eqb left [] || eqb right []
      then try_delimiters_chunking text recurse fallback delimiters'
      else
        l <- recurse left ;;
        r <- recurse right ;;
        Ok (Halved delimiter l r)
  end.

Fixpoint chunking_fuel (fuel : nat) (subsection : list str * str)
    (max_tokens : Z) (model : str) (max_recursion : Z) : res chunking :=
  match fuel with
  | 0 => Raise OutOfFuel
  | S fuel' =>
      let '(titles, text) := subsection in
      let string := join PARAGRAPH (titles ++ [text]) in
      let num_tokens_in_string := num_tokens string GPT_MODEL in
      if (num_tokens_in_string <=? max_tokens)%Z then Ok (Fits string)
      else if (max_recursion =? 0)%Z
      then Ok (Truncated string (truncated_string string model max_tokens))
      else
        try_delimiters_chunking text
          (fun half =>
             chunking_fuel fuel' (titles, half) max_tokens model
               (max_recursion - 1))
          (Truncated string (truncated_string string model max_tokens))
          [PARAGRAPH; NEWLINE; SENTENCE]
  end.

Definition chunking_of (subsection : list str * str)
    (max_tokens : Z) (model : str) (max_recursion : Z) : res chunking :=
  chunking_fuel (S (length (snd subsection))) subsection
    max_tokens model max_recursion.

(** The split the specification words for three parts or more: the split
    point is the index before the one the scan stopped at. *)
Definition halved_as_worded (string delimiter : str) (chunks : list str)
    : str * str :=
  let split_point := Nat.pred (stop_index string delimiter chunks) in
  (join delimiter (firstn split_point chunks),
   join delimiter (skipn split_point chunks)).

End Chunker.

(** What [titles] put in front of the body in
    ["\n\n".join(titles + [text])]. *)
Definition title_prefix (titles : list str) : str :=
  concat (map (fun title => title ++ PARAGRAPH) titles).

Definition strip_titles (titles : list str) (chunk : str) : str :=
  skipn (length (title_prefix titles)) chunk.

(** The body text a run covers: the title prefix stripped from every chunk,
    the delimiter each split consumed put back. *)
Fixpoint rebuild (titles : list str) (t : chunking) : str :=
  match t with
  | Fits chunk => strip_titles titles chunk
  | Truncated _ chunk => strip_titles titles chunk
  | Halved delimiter l r => rebuild titles l ++ delimiter ++ rebuild titles r
  end.

(** One token per character. *)
Definition char_encoding : Encoding :=
  {| encode := map Z.of_N; decode := map Z.to_N |}.

Definition char_model (_ : str) : Encoding := char_encoding.

(** ** The Unicode character database

    [str.strip], [str.isnumeric] and [int] consult CPython's character
    tables, which are not part of the repository. *)

Record Ucd : Type := {
  isspace : char -> bool;            (* [c.isspace()] *)
  isnumeric_char : char -> bool;     (* [c.isnumeric()] *)
  decimal : char -> option Z         (* the digit value [int] reads from [c] *)
}.

(** [str(n)] for an [int]. *)
Fixpoint uint_chars (d : Decimal.uint) : str :=
  match d with
  | Decimal.Nil => []
  | Decimal.D0 d' => 48%N :: uint_chars d'
  | Decimal.D1 d' => 49%N :: uint_chars d'
  | Decimal.D2 d' => 50%N :: uint_chars d'
  | Decimal.D3 d' => 51%N :: uint_chars d'
  | Decimal.D4 d' => 52%N :: uint_chars d'
  | Decimal.D5 d' => 53%N :: uint_chars d'
  | Decimal.D6 d' => 54%N :: uint_chars d'
  | Decimal.D7 d' => 55%N :: uint_chars d'
  | Decimal.D8 d' => 56%N :: uint_chars d'
  | Decimal.D9 d' => 57%N :: uint_chars d'
  end.

Definition str_of_int (n : Z) : str :=
  match Z.to_int n with
  | Decimal.Pos d => uint_chars d
  | Decimal.Neg d => 45%N :: uint_chars d
  end.

(** The bound CPython puts by default on the number of digits [int] reads
    ([sys.int_info.default_max_str_digits]). *)
Definition MAX_STR_DIGITS : Z := 4300%Z.

Section SectionParser.

Variable U : Ucd.

Fixpoint lstrip (s : str) : str :=
  match s with
  | [] => []
  | c :: s' => if isspace U c then lstrip s' else s
  end.

Definition rstrip (s : str) : str := rev (lstrip (rev s)).

(** [s.strip()] *)
Definition strip (s : str) : str := rstrip (lstrip s).

(** [s.isnumeric()]: at least one character, all of them numeric. *)
Definition isnumeric (s : str) : bool :=
  match s with
  | [] => false
  | _ :: _ => forallb (isnumeric_char U) s
  end.

Fixpoint int_digits (acc : Z) (s : str) : res Z :=
  match s with
  | [] => Ok acc
  | c :: s' =>
      match decimal U c with
      | Some d => int_digits (10 * acc + d) s'
      | None => Raise ValueError
      end
  end.

(** The whitespace [int] skips around the digits.  It is not that of
    [str.strip]: the separators U+001C to U+001F, which [strip] removes,
    are left in place by [int] and make it raise. *)
Definition int_isspace (c : char) : bool :=
  isspace U c && negb ((28 <=? c) && (c <=? 31))%N.

Fixpoint int_lstrip (s : str) : str :=
  match s with
  | [] => []
  | c :: s' => if int_isspace c then int_lstrip s' else s
  end.

Definition int_strip (s : str) : str :=
  rev (int_lstrip (rev (int_lstrip s))).

(** [int(s)] on a string that, stripped, is a run of numeric characters, the
    one place the source calls it: surrounding whitespace is skipped, every
    character left must be a decimal digit, and there may be at most
    [MAX_STR_DIGITS] of them.  (The signs and underscores [int] also reads
    cannot occur there.) *)
Definition int (s : str) : res Z :=
  match int_strip s with
  | [] => Raise ValueError
  | digits =>
      if (MAX_STR_DIGITS <? Z.of_nat (length digits))%Z
      then Raise ValueError
      else int_digits 0 digits
  end.

(** The variables of [split_into_sections]. *)
Record sections_state : Type := {
  res_ : list (str * list str);
  tmp : option (list str);
  active : bool;
  match_tok : Z
}.

Definition sections_init : sections_state :=
  {| res_ := []; tmp := None; active := false; match_tok := 0 |}.

(** [line.strip().isnumeric() and int(line) == match_tok+1] *)
Definition is_marker (st : sections_state) (line : str) : res bool :=
  if isnumeric (strip line)
  then n <- int line ;; Ok (n =? match_tok st + 1)%Z
  else Ok false.

(** One iteration of the [for line in file.readlines()] loop. *)
Definition sections_step (st : sections_state) (line : str)
    : res sections_state :=
  marker <- is_marker st line ;;
  if marker then
    let res' :=
      match tmp st with
      | Some ((_ :: _) as lines) => res_ st ++ [(str_of_int (match_tok st), lines)]
      | _ => res_ st                                    (* [if tmp:] is false *)
      end in
    Ok {| res_ := res'; tmp := Some []; active := true;
          match_tok := match_tok st + 1 |}
  else if active st then
    match tmp st with
    | Some lines =>
        Ok {| res_ := res_ st; tmp := Some (lines ++ [line]);
              active := active st; match_tok := match_tok st |}
    | None => Raise AttributeError
    end
  else Ok st.

Fixpoint sections_loop (st : sections_state) (lines : list str)
    : res sections_state :=
  match lines with
  | [] => Ok st
  | line :: lines' => st' <- sections_step st line ;; sections_loop st' lines'
  end.

(** [split_into_sections], on the lines [file.readlines()] returned. *)
Definition split_into_sections (lines : list str)
    : res (list (str * list str)) :=
  st <- sections_loop sections_init lines ;;
  Ok (res_ st).

End SectionParser.

(** The characters [str.isspace] accepts. *)
Definition python_whitespace : list char :=
  [9; 10; 11; 12; 13; 28; 29; 30; 31; 32; 133; 160; 5760;
   8192; 8193; 8194; 8195; 8196; 8197; 8198; 8199; 8200; 8201; 8202;
   8232; 8233; 8239; 8287; 12288]%N.

(** Python's tables on the ASCII range; no digit is known beyond it. *)
Definition ascii_ucd : Ucd :=
  {| isspace := fun c => existsb (N.eqb c) python_whitespace;
     isnumeric_char := fun c => (48 <=? c)%N && (c <=? 57)%N;
     decimal := fun c =>
       if (48 <=? c)%N && (c <=? 57)%N then Some (Z.of_N c - 48)%Z else None |}.

(** A database that says about ASCII characters what Python's does. *)
Definition ucd_ascii (U : Ucd) : Prop :=
  forall c : char, (c < 128)%N ->
    isspace U c = isspace ascii_ucd c /\
    isnumeric_char U c = isnumeric_char ascii_ucd c /\
    decimal U c = decimal ascii_ucd c.

(** Two databases that say the same about a character. *)
Definition ucd_agree (U V : Ucd) (c : char) : Prop :=
  isspace U c = isspace V c /\
  isnumeric_char U c = isnumeric_char V c /\
  decimal U c = decimal V c.

(** The state after a line taken as body text of the open section. *)
Definition append_line (st : sections_state) (line : str) : sections_state :=
  {| res_ := res_ st;
     tmp := option_map (fun lines => lines ++ [line]) (tmp st);
     active := active st;
     match_tok := match_tok st |}.

(** The state after an accepted marker line. *)
Definition open_section (st : sections_state) : sections_state :=
  {| res_ :=
       match tmp st with
       | Some ((_ :: _) as lines) => res_ st ++ [(str_of_int (match_tok st), lines)]
       | _ => res_ st
       end;
     tmp := Some [];
     active := true;
     match_tok := match_tok st + 1 |}.

(** What holds of the variables of [split_into_sections] at every
    iteration: the ids emitted so far are the decimal forms of strictly
    increasing integers from 1 up to the section still open, no emitted
    section is empty, and a buffer exists exactly when a section is open. *)
Definition sections_inv (st : sections_state) : Prop :=
  (exists ks,
     map fst (res_ st) = map str_of_int ks /\
     StronglySorted Z.lt ks /\
     Forall (fun k => 1 <= k < match_tok st)%Z ks) /\
  Forall (fun s : str * list str => snd s <> []) (res_ st) /\
  (0 <= match_tok st)%Z /\
  (active st = true -> tmp st <> None) /\
  (tmp st <> None -> active st = true /\ (1 <= match_tok st)%Z).

(** Ids that read ["1"], ["2"], ... in this order: the contiguous sequence
    from 1 of the specification. *)
Definition contiguous_from_one (ids : list str) : Prop :=
  ids = map (fun k => str_of_int (Z.of_nat k)) (seq 1 (length ids)).

(** ** Question and answer pairs *)

(** [parse_and_join_ans(ans)] *)
Definition parse_and_join_ans (ans : list str) : str :=
  let ans := filter (fun tok => negb (mem tok [[LF]; [TAB]; [EM_SPACE; LF]])) ans in
  join [] ans.

(** The lines the join filter drops, in the specification's words. *)
Definition dropped (tok : str) : Prop :=
  tok = [LF] \/ tok = [TAB] \/ tok = [EM_SPACE; LF].

(** What the specification says of the joined answer. *)
Inductive joined : list str -> str -> Prop :=
| joined_nil : joined [] []
| joined_drop tok ans s : dropped tok -> joined ans s -> joined (tok :: ans) s
| joined_keep tok ans s : ~ dropped tok -> joined ans s -> joined (tok :: ans) (tok ++ s).

(** [split_into_qa_pairs] appends the list bound to [questions] to [tmp] and
    may go on appending to that same list, so the lists of questions live in
    a store: [heap] holds them by address, [questions] is the address the
    variable is bound to, and a unit in [tmp] holds an address.  [ans] is
    only ever read into a string before it is stored. *)
Record qa_state : Type := {
  heap : list (list str);
  questions : nat;
  ans : list str
}.

Definition qa_init : qa_state :=
  {| heap := [[]]; questions := 0; ans := [] |}.

(** [heap[a].append(x)] *)
Fixpoint heap_append (h : list (list str)) (a : nat) (x : str)
    : list (list str) :=
  match h, a with
  | [], _ => []
  | l :: h', 0 => (l ++ [x]) :: h'
  | l :: h', S a' => l :: heap_append h' a' x
  end.

(** One iteration of [for line in text]. *)
Definition qa_line (acc : qa_state * list (nat * str)) (line : str)
    : qa_state * list (nat * str) :=
  let '(st, tmp) := acc in
  if startswith line (lit "<Q>") then
    let '(st, tmp) :=
      if (0 <? length (ans st))%nat then
        let p_ans := parse_and_join_ans (ans st) in
        ({| heap := heap st ++ [[]]; questions := length (heap st); ans := [] |},
         tmp ++ [(questions st, p_ans)])
      else (st, tmp) in
    ({| heap := heap_append (heap st) (questions st) (slice_from line 4);
        questions := questions st; ans := ans st |}, tmp)
  else
    ({| heap := heap st; questions := questions st; ans := ans st ++ [line] |},
     tmp).

(** The body of [for section, text in sections]. *)
Definition qa_section (acc : qa_state * list (str * list (nat * str)))
    (entry : str * list str) : qa_state * list (str * list (nat * str)) :=
  let '(st, res) := acc in
  let '(section, text) := entry in
  let '(st, tmp) := fold_left qa_line text (st, []) in
  let tmp :=
    if (0 <? length (ans st))%nat
    then tmp ++ [(questions st, parse_and_join_ans (ans st))]
    else tmp in
  (st, res ++ [(section, tmp)]).

(** [split_into_qa_pairs(sections)]: the result as a reader of the returned
    value sees it, every address replaced by the list stored there at the
    end. *)
Definition deref (h : list (list str)) (unit : nat * str) : list str * str :=
  (nth (fst unit) h [], snd unit).

Definition deref_section (h : list (list str)) (entry : str * list (nat * str))
    : str * list (list str * str) :=
  (fst entry, map (deref h) (snd entry)).

Definition split_into_qa_pairs (sections : list (str * list str))
    : list (str * list (list str * str)) :=
  let '(st, res) := fold_left qa_section sections (qa_init, []) in
  map (deref_section (heap st)) res.

(** An emitted unit whose list of questions the loops will not append to
    any more: it is not the list [questions] is bound to, or [ans] is not
    empty, so that the next question line rebinds [questions] first. *)
Definition frozen (st : qa_state) (unit : nat * str) : Prop :=
  fst unit < length (heap st) /\
  (fst unit = questions st -> ans st <> []).

(** The variables of the value reading that correspond to a store. *)
Definition qa_value (st : qa_state) : list str * list str :=
  (nth (questions st) (heap st) [], ans st).

(** The same loops on values, every [questions] list copied where the source
    shares it. *)
Definition qa_line_pure (acc : (list str * list str) * list (list str * str))
    (line : str) : (list str * list str) * list (list str * str) :=
  let '((questions, ans), tmp) := acc in
  if startswith line (lit "<Q>") then
    let '((questions, ans), tmp) :=
      if (0 <? length ans)%nat
      then (([], []), tmp ++ [(questions, parse_and_join_ans ans)])
      else ((questions, ans), tmp) in
    ((questions ++ [slice_from line 4], ans), tmp)
  else ((questions, ans ++ [line]), tmp).

Definition qa_section_pure
    (acc : (list str * list str) * list (str * list (list str * str)))
    (entry : str * list str)
    : (list str * list str) * list (str * list (list str * str)) :=
  let '(qa, res) := acc in
  let '(section, text) := entry in
  let '((questions, ans), tmp) := fold_left qa_line_pure text (qa, []) in
  let tmp :=
    if (0 <? length ans)%nat
    then tmp ++ [(questions, parse_and_join_ans ans)]
    else tmp in
  ((questions, ans), res ++ [(section, tmp)]).

Definition split_into_qa_pairs_pure (sections : list (str * list str))
    : list (str * list (list str * str)) :=
  snd (fold_left qa_section_pure sections (([], []), [])).

(** What the specification describes: every section parsed on its own, from
    empty [questions] and [ans]. *)
Definition qa_pairs_per_section (sections : list (str * list str))
    : list (str * list (list str * str)) :=
  concat (map (fun entry => split_into_qa_pairs [entry]) sections).

(** The end-to-end example of the specification: ["1\n"],
    ["<Q> What is 2+2?\n"], ["4\n"], ["2\n"],
    ["<Q> What is the capital of France?\n"], ["Paris\n"]. *)
Definition example_lines : list str :=
  [line "1"; line "<Q> What is 2+2?"; line "4"; line "2";
   line "<Q> What is the capital of France?"; line "Paris"].

(** ** The driver script [setup.py]

    Between its calls to the document store the script chunks the
    transcript: sections, question and answer pairs, then
    [split_strings_from_subsection] on every pair with the questions as
    titles and the answer as text, with the default model and
    [max_recursion].  A [Document] is built from each chunk. *)

Definition MAX_TOKENS : Z := 1600%Z.
Definition DEFAULT_MAX_RECURSION : Z := 5%Z.
Definition collection_name : str := lit "fever".

(** [qa_data]: the pairs of all sections, in order. *)
Definition qa_data_of (qa_sections : list (str * list (list str * str)))
    : list (list str * str) :=
  concat (map snd qa_sections).

(** The keyword arguments [setup.py] gives to [Document]; [metadata] is
    [{"bar": i}]. *)
Record Document : Type := {
  content : str;
  document_id : str;
  metadata_bar : Z
}.

(** [[Document(...) for i, chunk in enumerate(qa_strings)]], from index [i]. *)
Fixpoint documents_from (i : nat) (qa_strings : list str) : list Document :=
  match qa_strings with
  | [] => []
  | chunk :: qa_strings' =>
      {| content := chunk;
         document_id := collection_name ++ lit "-" ++ str_of_int (Z.of_nat i);
         metadata_bar := Z.of_nat i |}
      :: documents_from (S i) qa_strings'
  end.

Definition documents_of (qa_strings : list str) : list Document :=
  documents_from 0 qa_strings.

(** ** The tokenizer with its exceptions

    [tiktoken] raises [KeyError] on a model name it does not know and
    [ValueError] on text that spells one of its special tokens.  A
    [Tokenizer] is an encoding with the second, [encoding_for_model] below
    the map from model names with the first.  [Raising] holds the functions
    of [utils.py] that count tokens, and the chunking of [setup.py], over
    them: the definitions above say what these functions compute on the
    models and texts the tokenizer accepts, those of [Raising] when they
    return at all. *)

Record Tokenizer : Type := {
  try_encode : str -> option (list Z);     (* [None]: [ValueError] *)
  decode_tokens : list Z -> str
}.

Module Raising.

Section WithTiktoken.

Variable encoding_for_model : str -> option Tokenizer.   (* [None]: [KeyError] *)

(** [tiktoken.encoding_for_model(model)] *)
Definition encoding (model : str) : res Tokenizer :=
  match encoding_for_model model with
  | Some enc => Ok enc
  | None => Raise KeyError
  end.

(** [encoding.encode(text)] *)
Definition encode_text (enc : Tokenizer) (text : str) : res (list Z) :=
  match try_encode enc text with
  | Some tokens => Ok tokens
  | None => Raise ValueError
  end.

(** [num_tokens(text, model=GPT_MODEL)] *)
Definition num_tokens (text model : str) : res Z :=
  enc <- encoding model ;;
  tokens <- encode_text enc text ;;
  Ok (Z.of_nat (length tokens)).

(** The loop of [halved_by_delimiter], as [halfway_scan] above. *)
Fixpoint halfway_scan (chunks : list str) (delimiter : str) (halfway : Z)
    (todo : list str) (i : nat) (best_diff : Z) : res nat :=
  match todo with
  | [] => Ok (Nat.pred i)
  | _ :: todo' =>
      let left := join delimiter (firstn (i + 1) chunks) in
      left_tokens <- num_tokens left GPT_MODEL ;;
      let diff := Z.abs (halfway - left_tokens) in
      if (diff >=? best_diff)%Z then Ok i
      else halfway_scan chunks delimiter halfway todo' (S i) diff
  end.

(** [halved_by_delimiter(string, delimiter)] *)
Definition halved_by_delimiter (string delimiter : str) : res (str * str) :=
  chunks <- split string delimiter ;;
  match chunks with
  | [] => Raise UnboundLocalError
  | [_] => Ok (string, [])
  | [a; b] => Ok (a, b)
  | _ =>
      total_tokens <- num_tokens string GPT_MODEL ;;
      let halfway := (total_tokens / 2)%Z in
      i <- halfway_scan chunks delimiter halfway chunks 0 halfway ;;
      let left := join delimiter (firstn i chunks) in
      let right := join delimiter (skipn i chunks) in
      Ok (left, right)
  end.

(** [truncated_string(string, model, max_tokens)] *)
Definition truncated_string (string model : str) (max_tokens : Z) : res str :=
  enc <- encoding model ;;
  encoded_string <- encode_text enc string ;;
  Ok (decode_tokens enc (slice_to encoded_string max_tokens)).

(** The [for delimiter in ...] loop of [split_strings_from_subsection];
    [fallback] is the [return] after the loop, evaluated only there. *)
Fixpoint try_delimiters (text : str) (recurse : str -> res (list str))
    (fallback : res (list str)) (delimiters : list str) : res (list str) :=
  match delimiters with
  | [] => fallback
  | delimiter :: delimiters' =>
      halves <- halved_by_delimiter text delimiter ;;
      let left := fst halves in
      let right := snd halves in
      if eqb left [] || eqb right []
      then try_delimiters text recurse fallback delimiters'
      else
        left_strings <- recurse left ;;
        right_strings <- recurse right ;;
        Ok (left_strings ++ right_strings)
  end.

(** [split_strings_from_subsection(subsection, max_tokens, model,
    max_recursion)], with a bound [fuel] on the depth of the recursion. *)
Fixpoint split_strings_fuel (fuel : nat) (subsection : list str * str)
    (max_tokens : Z) (model : str) (max_recursion : Z) : res (list str) :=
  match fuel with
  | 0 => Raise OutOfFuel
  | S fuel' =>
      let '(titles, text) := subsection in
      let string := join PARAGRAPH (titles ++ [text]) in
      num_tokens_in_string <- num_tokens string GPT_MODEL ;;
      if (num_tokens_in_string <=? max_tokens)%Z then Ok [string]
      else if (max_recursion =? 0)%Z
      then truncated <- truncated_string string model max_tokens ;; Ok [truncated]
      else
        try_delimiters text
          (fun half =>
             split_strings_fuel fuel' (titles, half) max_tokens model
               (max_recursion - 1))
          (truncated <- truncated_string string model max_tokens ;; Ok [truncated])
          [PARAGRAPH; NEWLINE; SENTENCE]
  end.

Definition split_strings_from_subsection (subsection : list str * str)
    (max_tokens : Z) (model : str) (max_recursion : Z) : res (list str) :=
  split_strings_fuel (S (length (snd subsection))) subsection
    max_tokens model max_recursion.

(** [qa_strings] in [setup.py]: the loop
    [for section in qa_data: qa_strings.extend(split_strings_from_subsection(section, max_tokens=MAX_TOKENS))]. *)
Fixpoint qa_strings_of (qa_data : list (list str * str)) : res (list str) :=
  match qa_data with
  | [] => Ok []
  | section :: qa_data' =>
      strings <- split_strings_from_subsection section
                   MAX_TOKENS GPT_MODEL DEFAULT_MAX_RECURSION ;;
      more <- qa_strings_of qa_data' ;;
      Ok (strings ++ more)
  end.

(** From the lines of the transcript to [qa_strings]. *)
Definition setup_qa_strings (U : Ucd) (lines : list str) : res (list str) :=
  sections <- split_into_sections U lines ;;
  qa_strings_of (qa_data_of (split_into_qa_pairs sections)).

(** What the code guarantees of a returned string: its measured token count
    is at most [max_tokens]; or it is the decoding of the first [max_tokens]
    tokens of a string that had more, and exactly [max_tokens] tokens were
    kept. *)
Definition kept_within (max_tokens : Z) (chunk : str) : Prop :=
  (exists n, num_tokens chunk GPT_MODEL = Ok n /\ (n <= max_tokens)%Z) \/
  (exists enc string tokens,
     encoding_for_model GPT_MODEL = Some enc /\
     try_encode enc string = Some tokens /\
     (max_tokens < Z.of_nat (length tokens))%Z /\
     chunk = decode_tokens enc (firstn (Z.to_nat max_tokens) tokens) /\
     Z.of_nat (length (firstn (Z.to_nat max_tokens) tokens)) = max_tokens).

(** The tokenizer knows [model] and refuses no text under it. *)
Definition accepts_all (model : str) : Prop :=
  exists enc, encoding_for_model model = Some enc /\
              forall text, try_encode enc text <> None.

End WithTiktoken.

(** A call that raised what the tokenizer raised. *)
Definition tokenizer_raised {A : Type} (out : res A) : Prop :=
  out = Raise ValueError \/ out = Raise KeyError.

(** A call that returned a non-empty list, or raised what the tokenizer
    raised. *)
Definition returns_or_raises (out : res (list str)) : Prop :=
  (exists strings, out = Ok strings /\ strings <> []) \/ tokenizer_raised out.

End Raising.

(** The tokenizer where it returns: the [Encoding] of a model it knows
    encodes the texts it accepts as it does. *)
Definition accepted (encoding_for_model : str -> option Tokenizer)
    (model : str) : Encoding :=
  match encoding_for_model model with
  | Some enc =>
      {| encode := fun text =>
           match try_encode enc text with Some tokens => tokens | None => [] end;
         decode := decode_tokens enc |}
  | None => {| encode := fun _ => []; decode := fun _ => [] |}
  end.

(** One token per character, no text refused, under every model name. *)
Definition char_tokenizer : Tokenizer :=
  {| try_encode := fun text => Some (map Z.of_N text);
     decode_tokens := map Z.to_N |}.

Definition char_tokenizers (_ : str) : option Tokenizer := Some char_tokenizer.

(** The special token of [cl100k_base] that ends a text. *)
Definition ENDOFTEXT : str := lit "<|endoftext|>".

(** What token 220 (a space), 256 (two spaces) and 16 (the digit 1) of
    [cl100k_base] decode to; another number stands for the character with
    that code. *)
Definition cl100k_token_text (token : Z) : str :=
  if (token =? 220)%Z then lit " "
  else if (token =? 256)%Z then lit "  "
  else if (token =? 16)%Z then lit "1"
  else [Z.to_N token].

(** [cl100k_base], the encoding of [gpt-3.5-turbo], as far as the examples
    below need it.  Text in which [<|endoftext|>] occurs is refused.  Two
    spaces before a digit are two tokens, the pre-tokenizer keeping the last
    space of a run apart from the run when a non-space follows; two spaces
    alone are one token.  On every other text this excerpt is one token per
    character, which is not what [cl100k_base] does. *)
Definition cl100k_excerpt : Tokenizer :=
  {| try_encode := fun text =>
       match find text ENDOFTEXT with
       | Some _ => None
       | None =>
           if eqb text (lit "  1") then Some [220; 220; 16]%Z
           else if eqb text (lit "  ") then Some [256]%Z
           else Some (map Z.of_N text)
       end;
     decode_tokens := fun tokens => concat (map cl100k_token_text tokens) |}.

(** [tiktoken.encoding_for_model] on [gpt-3.5-turbo]; the excerpt knows no
    other model. *)
Definition tiktoken_excerpt (model : str) : option Tokenizer :=
  if eqb model GPT_MODEL then Some cl100k_excerpt else None.

(** ** Notions the further properties use *)

(** [a] is [b] with some elements left out, the others in their order. *)
Inductive subsequence : list str -> list str -> Prop :=
| subsequence_nil : subsequence [] []
| subsequence_skip x a b : subsequence a b -> subsequence a (x :: b)
| subsequence_keep x a b : subsequence a b -> subsequence (x :: a) (x :: b).

(** The lines [split_into_sections] holds at some iteration: those of the
    emitted sections, then those of the buffer. *)
Definition held_lines (st : sections_state) : list str :=
  concat (map snd (res_ st)) ++
  match tmp st with Some lines => lines | None => [] end.

(** A database that also knows the numeric characters of Latin-1 that are
    not decimal digits: the superscripts 2, 3 and 1 and the fractions
    1/4, 1/2 and 3/4. *)
Definition latin1_ucd : Ucd :=
  {| isspace := isspace ascii_ucd;
     isnumeric_char := fun c =>
       isnumeric_char ascii_ucd c ||
       existsb (N.eqb c) [178; 179; 185; 188; 189; 190]%N;
     decimal := decimal ascii_ucd |}.

(** ** Facts about [str] operations *)

Section PyStrFacts.

Lemma eqb_eq (a b : str) : eqb a b = true <-> a = b.
Proof.
  revert b; induction a as [|x a IH]; intros [|y b]; simpl;
    try (split; [discriminate | discriminate]); try tauto.
  rewrite andb_true_iff, N.eqb_eq, IH.
  split; [intros [-> ->]; reflexivity | intros E; inversion E; auto].
Qed.

Lemma eqb_refl (a : str) : eqb a a = true.
Proof. apply eqb_eq; reflexivity. Qed.

Lemma eqb_neq (a b : str) : eqb a b = false <-> a <> b.
Proof.
  rewrite <- eqb_eq. destruct (eqb a b); split; congruence.
Qed.

Lemma startswith_app (s p : str) :
  startswith s p = true <-> exists t, s = p ++ t.
Proof.
  revert s; induction p as [|y p IH]; intros s; simpl.
  - split; [exists s; reflexivity | reflexivity].
  - destruct s as [|x s].
    + split; [discriminate | intros [t E]; discriminate].
    + rewrite andb_true_iff, N.eqb_eq, IH. split.
      * intros [-> [t ->]]. exists t; reflexivity.
      * intros [t E]; inversion E; subst. split; [reflexivity | exists t; reflexivity].
Qed.

Lemma startswith_nil_sep (s : str) : startswith s [] = true.
Proof. destruct s; reflexivity. Qed.

(** [find] returns an index at which the separator really is. *)
Lemma find_Some (s sep : str) (i : nat) :
  find s sep = Some i ->
  s = firstn i s ++ sep ++ skipn (i + length sep) s.
Proof.
  revert i; induction s as [|x s IH]; intros i.
  - simpl. destruct (startswith [] sep) eqn:E; [|discriminate].
    intros [= <-]. apply startswith_app in E. destruct E as [t E].
    destruct sep; [reflexivity | discriminate].
  - cbn [find]. destruct (startswith (x :: s) sep) eqn:E.
    + intros [= <-]. apply startswith_app in E. destruct E as [t E].
      rewrite E at 1. cbn [firstn app Nat.add]. f_equal.
      rewrite E, skipn_app, Nat.sub_diag, skipn_all. reflexivity.
    + destruct (find s sep) as [j|] eqn:F; [|discriminate].
      intros [= <-]. cbn [firstn skipn Nat.add]. rewrite <- app_comm_cons.
      f_equal. apply IH. reflexivity.
Qed.

Lemma find_Some_lt (s sep : str) (i : nat) :
  find s sep = Some i -> i + length sep <= length s.
Proof.
  revert i; induction s as [|x s IH]; intros i; cbn [find].
  - destruct (startswith [] sep) eqn:E; [|discriminate].
    intros [= <-]. apply startswith_app in E. destruct E as [t E].
    destruct sep; [simpl; lia | discriminate].
  - destruct (startswith (x :: s) sep) eqn:E.
    + intros [= <-]. apply startswith_app in E. destruct E as [t E].
      rewrite E, length_app. lia.
    + destruct (find s sep) as [j|] eqn:F; [|discriminate].
      intros [= <-]. specialize (IH j eq_refl). simpl. lia.
Qed.

(** [find] misses no occurrence. *)
Lemma find_None (s sep : str) :
  find s sep = None -> forall a b, s <> a ++ sep ++ b.
Proof.
  induction s as [|x s IH]; cbn [find].
  - destruct (startswith [] sep) eqn:E; [discriminate|]. intros _ a b H.
    destruct a; [|discriminate]. simpl in H.
    assert (startswith [] sep = true) by (apply startswith_app; exists b; exact H).
    congruence.
  - destruct (startswith (x :: s) sep) eqn:E; [discriminate|].
    destruct (find s sep) eqn:F; [discriminate|]. intros _ a b H.
    destruct a as [|y a].
    + simpl in H.
      assert (startswith (x :: s) sep = true) by (apply startswith_app; exists b; exact H).
      congruence.
    + inversion H; subst. eapply IH; eauto.
Qed.

(** The index [find] returns is the leftmost one. *)
Lemma find_leftmost (s sep : str) (i : nat) :
  find s sep = Some i ->
  forall a b, s = a ++ sep ++ b -> i <= length a.
Proof.
  revert i; induction s as [|x s IH]; intros i; cbn [find].
  - destruct (startswith [] sep); [intros [= <-]; lia | discriminate].
  - destruct (startswith (x :: s) sep) eqn:E; [intros [= <-]; lia|].
    destruct (find s sep) as [j|] eqn:F; [|discriminate].
    intros [= <-] a b H. destruct a as [|y a].
    + simpl in H.
      assert (startswith (x :: s) sep = true) by (apply startswith_app; exists b; exact H).
      congruence.
    + inversion H; subst. simpl. apply le_n_S. eapply IH; eauto.
Qed.

End PyStrFacts.

(** ** [split] and [join] *)

Section SplitJoin.

Variable sep : str.

Lemma split_loop_nonempty (fuel : nat) (s : str) : split_loop fuel s sep <> [].
Proof.
  destruct fuel; simpl; [discriminate|].
  destruct (find s sep); discriminate.
Qed.

Lemma join_cons (p : str) (rest : list str) :
  rest <> [] -> join sep (p :: rest) = p ++ sep ++ join sep rest.
Proof. destruct rest; [congruence | reflexivity]. Qed.

Lemma join_app (l1 l2 : list str) :
  l1 <> [] -> l2 <> [] ->
  join sep (l1 ++ l2) = join sep l1 ++ sep ++ join sep l2.
Proof.
  intros H1 H2. induction l1 as [|p l1 IH]; [congruence|].
  destruct l1 as [|q l1].
  - simpl app. rewrite join_cons by assumption. reflexivity.
  - rewrite <- app_comm_cons.
    rewrite join_cons by discriminate.
    rewrite IH by discriminate.
    rewrite (join_cons p (q :: l1)) by discriminate.
    rewrite <- !app_assoc. reflexivity.
Qed.

(** Cutting a list of at least two parts anywhere strictly inside it and
    joining both sides loses exactly one separator. *)
Lemma join_firstn_skipn (parts : list str) (i : nat) :
  0 < i < length parts ->
  join sep (firstn i parts) ++ sep ++ join sep (skipn i parts) = join sep parts.
Proof.
  intros Hi. rewrite <- (firstn_skipn i parts) at 3.
  symmetry. apply join_app.
  - intros E. apply (f_equal (@length _)) in E.
    rewrite length_firstn in E. simpl in E. lia.
  - intros E. apply (f_equal (@length _)) in E.
    rewrite length_skipn in E. simpl in E. lia.
Qed.

(** Joining what [split] produced gives the string back. *)
Lemma join_split_loop (fuel : nat) (s : str) :
  join sep (split_loop fuel s sep) = s.
Proof.
  revert s; induction fuel as [|fuel IH]; intros s; simpl; [reflexivity|].
  destruct (find s sep) as [i|] eqn:F; [|reflexivity].
  rewrite join_cons by apply split_loop_nonempty.
  rewrite IH. symmetry. apply find_Some. exact F.
Qed.

Hypothesis sep_nonempty : sep <> [].

Lemma find_nil : find [] sep = None.
Proof. destruct sep; [congruence | reflexivity]. Qed.

(** [length s] cuts are enough: more fuel changes nothing. *)
Lemma split_loop_enough (f1 f2 : nat) (s : str) :
  length s <= f1 -> length s <= f2 ->
  split_loop f1 s sep = split_loop f2 s sep.
Proof.
  revert f2 s; induction f1 as [|f1 IH]; intros f2 s H1 H2.
  - destruct s; [|simpl in H1; lia].
    destruct f2; cbn [split_loop]; [reflexivity|]. rewrite find_nil. reflexivity.
  - destruct f2 as [|f2].
    + destruct s; [|simpl in H2; lia]. cbn [split_loop]. rewrite find_nil. reflexivity.
    + cbn [split_loop]. destruct (find s sep) as [i|] eqn:F; [|reflexivity].
      f_equal. pose proof (find_Some_lt _ _ _ F) as Hi.
      assert (0 < length sep) by (destruct sep; [congruence | simpl; lia]).
      apply IH; rewrite length_skipn; lia.
Qed.

Lemma split_loop_fuel (fuel : nat) (s : str) :
  length s <= fuel -> split_loop fuel s sep = split_loop (length s) s sep.
Proof. intros H. apply split_loop_enough; [exact H | lia]. Qed.

(** No part contains the separator. *)
Lemma split_loop_parts (fuel : nat) (s : str) :
  length s <= fuel ->
  Forall (fun p => find p sep = None) (split_loop fuel s sep).
Proof.
  revert s; induction fuel as [|fuel IH]; intros s Hs.
  - destruct s; [|simpl in Hs; lia]. cbn [split_loop]. constructor; [apply find_nil | constructor].
  - cbn [split_loop]. destruct (find s sep) as [i|] eqn:F.
    + pose proof (find_Some_lt _ _ _ F) as Hi.
      assert (0 < length sep) by (destruct sep; [congruence | simpl; lia]).
      constructor.
      * destruct (find (firstn i s) sep) as [k|] eqn:G; [|reflexivity].
        exfalso. pose proof (find_Some_lt _ _ _ G) as Hk.
        apply find_Some in G. rewrite firstn_firstn in G.
        pose proof (find_leftmost _ _ _ F) as L.
        specialize (L (firstn (Nat.min k i) s)
                      (skipn (k + length sep) (firstn i s) ++ skipn i s)).
        rewrite length_firstn in Hk, L.
        assert (E : s = firstn (Nat.min k i) s ++
                        sep ++ skipn (k + length sep) (firstn i s) ++ skipn i s).
        { rewrite <- (firstn_skipn i s) at 1. rewrite G at 1.
          rewrite <- !app_assoc. reflexivity. }
        specialize (L E). lia.
      * apply IH. rewrite length_skipn. lia.
    + constructor; [exact F | constructor].
Qed.

(** A string in which the separator occurs splits into two parts or more. *)
Lemma split_loop_occurs (fuel : nat) (s a b : str) :
  s = a ++ sep ++ b -> 2 <= length (split_loop (S fuel) s sep).
Proof.
  intros E. cbn [split_loop]. destruct (find s sep) as [i|] eqn:F.
  - cbn [length]. pose proof (split_loop_nonempty fuel (skipn (i + length sep) s)) as N.
    destruct (split_loop fuel (skipn (i + length sep) s) sep); [congruence | simpl; lia].
  - exfalso. exact (find_None _ _ F _ _ E).
Qed.

End SplitJoin.

(** ** The error monad *)

Lemma bind_Ok_inv {A B : Type} (m : res A) (k : A -> res B) (b : B) :
  bind m k = Ok b -> exists a, m = Ok a /\ k a = Ok b.
Proof. destruct m as [a|e]; simpl; [eauto | discriminate]. Qed.

(** A bounded search either finds an index or fails at every one. *)
Lemma bounded_search (n : nat) (p : nat -> bool) :
  (exists k, k < n /\ p k = true) \/ (forall k, k < n -> p k = false).
Proof.
  induction n as [|n [[k [Hk Hp]]|IH]].
  - right. intros k Hk. lia.
  - left. exists k. split; [lia | exact Hp].
  - destruct (p n) eqn:E.
    + left. exists n. split; [lia | exact E].
    + right. intros k Hk. destruct (Nat.eq_dec k n) as [->|]; [exact E | apply IH; lia].
Qed.

(** ** [halved_by_delimiter] *)

Section HalvedFacts.

Variable E : str -> Encoding.

Lemma num_tokens_nonneg (text model : str) : (0 <= num_tokens E text model)%Z.
Proof. unfold num_tokens. lia. Qed.

Lemma split_Ok (s sep : str) :
  sep <> [] -> split s sep = Ok (split_loop (length s) s sep).
Proof. destruct sep; [congruence | reflexivity]. Qed.

Lemma split_Ok_inv (s sep : str) (chunks : list str) :
  split s sep = Ok chunks ->
  sep <> [] /\ chunks = split_loop (length s) s sep.
Proof.
  destruct sep; simpl; [discriminate|]. intros [= <-]. split; [discriminate | reflexivity].
Qed.

Lemma split_join (s sep : str) (chunks : list str) :
  split s sep = Ok chunks -> join sep chunks = s /\ chunks <> [].
Proof.
  intros H. apply split_Ok_inv in H. destruct H as [_ ->].
  split; [apply join_split_loop | apply split_loop_nonempty].
Qed.

(** The scan breaks at the first index whose difference is not below
    [best_diff], provided some index of [todo] is such. *)
Lemma halfway_scan_first (chunks : list str) (delimiter : str) (halfway : Z)
    (todo : list str) (i : nat) (best : Z) :
  (exists k, i <= k < i + length todo /\
             (scan_diff E chunks delimiter halfway k >=
              scan_best E chunks delimiter halfway i best k)%Z) ->
  let r := halfway_scan E chunks delimiter halfway todo i best in
  i <= r < i + length todo /\
  (scan_diff E chunks delimiter halfway r >=
   scan_best E chunks delimiter halfway i best r)%Z /\
  forall k, i <= k < r ->
    (scan_diff E chunks delimiter halfway k <
     scan_best E chunks delimiter halfway i best k)%Z.
Proof.
  revert i best; induction todo as [|c todo IH]; intros i best [k [Hk Hd]].
  - simpl in Hk. lia.
  - cbn [halfway_scan length]. cbn [length] in Hk.
    fold (scan_diff E chunks delimiter halfway i).
    destruct (Z.geb_spec (scan_diff E chunks delimiter halfway i) best) as [G|G].
    + cbn zeta. split; [lia|]. split.
      * unfold scan_best. rewrite Nat.eqb_refl. lia.
      * intros j Hj. lia.
    + assert (Hki : k <> i).
      { intros ->. unfold scan_best in Hd. rewrite Nat.eqb_refl in Hd. lia. }
      destruct (IH (S i) (scan_diff E chunks delimiter halfway i)) as [R1 [R2 R3]].
      { exists k. split; [lia|]. unfold scan_best in *.
        destruct (Nat.eqb_spec k i); [lia|].
        destruct (Nat.eqb_spec k (S i)) as [->|]; [simpl in Hd; lia | exact Hd]. }
      cbn zeta. set (r := halfway_scan E chunks delimiter halfway todo (S i) _) in *.
      split; [lia|]. split.
      * unfold scan_best in *. destruct (Nat.eqb_spec r i); [lia|].
        destruct (Nat.eqb_spec r (S i)) as [Er|]; [rewrite Er in *; simpl; lia | exact R2].
      * intros j Hj. destruct (Nat.eq_dec j i) as [->|Hji].
        -- unfold scan_best. rewrite Nat.eqb_refl. lia.
        -- specialize (R3 j ltac:(lia)). unfold scan_best in *.
           destruct (Nat.eqb_spec j i); [lia|].
           destruct (Nat.eqb_spec j (S i)) as [Er|]; [rewrite Er in *; simpl; lia | exact R3].
Qed.

(** At the last index the prefix is the whole string, whose distance to the
    halfway point is at least the halfway point: the scan breaks there at
    the latest. *)
Lemma scan_diff_last (chunks : list str) (delimiter string : str) :
  join delimiter chunks = string -> chunks <> [] ->
  let halfway := (num_tokens E string GPT_MODEL / 2)%Z in
  (scan_diff E chunks delimiter halfway (Nat.pred (length chunks)) >= halfway)%Z.
Proof.
  intros J N halfway. unfold scan_diff.
  replace (Nat.pred (length chunks) + 1) with (length chunks)
    by (destruct chunks; [congruence | simpl; lia]).
  rewrite firstn_all, J.
  pose proof (num_tokens_nonneg string GPT_MODEL) as P.
  unfold halfway.
  pose proof (Z.div_mod (num_tokens E string GPT_MODEL) 2 ltac:(lia)) as D.
  pose proof (Z.mod_pos_bound (num_tokens E string GPT_MODEL) 2 ltac:(lia)) as M.
  lia.
Qed.

(** While the scan goes on, [best_diff] only decreases. *)
Lemma scan_best_le (chunks : list str) (delimiter : str) (halfway : Z) (k : nat) :
  (forall j, j < k ->
     (scan_diff E chunks delimiter halfway j <
      scan_best E chunks delimiter halfway 0 halfway j)%Z) ->
  (scan_best E chunks delimiter halfway 0 halfway k <= halfway)%Z.
Proof.
  induction k as [|k IH]; intros H.
  - unfold scan_best. simpl. lia.
  - unfold scan_best at 1. cbn [Nat.eqb Nat.pred].
    specialize (H k ltac:(lia)) as Hk.
    specialize (IH ltac:(intros j Hj; apply H; lia)). lia.
Qed.

(** The index [halved_by_delimiter] cuts at. *)
Lemma stop_index_first (string delimiter : str) (chunks : list str) :
  join delimiter chunks = string -> chunks <> [] ->
  let halfway := (num_tokens E string GPT_MODEL / 2)%Z in
  let i := stop_index E string delimiter chunks in
  i < length chunks /\
  (scan_diff E chunks delimiter halfway i >=
   scan_best E chunks delimiter halfway 0 halfway i)%Z /\
  forall k, k < i ->
    (scan_diff E chunks delimiter halfway k <
     scan_best E chunks delimiter halfway 0 halfway k)%Z.
Proof.
  intros J N halfway i.
  assert (L : 0 < length chunks) by (destruct chunks; [congruence | simpl; lia]).
  (* some index breaks: the least one that does is at most the last *)
  assert (Ex : exists k, 0 <= k < 0 + length chunks /\
                (scan_diff E chunks delimiter halfway k >=
                 scan_best E chunks delimiter halfway 0 halfway k)%Z).
  { destruct (bounded_search (length chunks)
                (fun k => (scan_diff E chunks delimiter halfway k >=?
                           scan_best E chunks delimiter halfway 0 halfway k)%Z))
      as [[k [Hk Hb]]|Hall].
    - exists k. split; [lia|]. apply Z.geb_le in Hb. lia.
    - exists (Nat.pred (length chunks)). split; [lia|].
      pose proof (scan_diff_last chunks delimiter string J N) as D. cbn zeta in D.
      fold halfway in D.
      pose proof (scan_best_le chunks delimiter halfway (Nat.pred (length chunks))) as B.
      assert (scan_best E chunks delimiter halfway 0 halfway (Nat.pred (length chunks))
              <= halfway)%Z.
      { apply B. intros j Hj. specialize (Hall j ltac:(lia)).
        destruct (Z.geb_spec (scan_diff E chunks delimiter halfway j)
                    (scan_best E chunks delimiter halfway 0 halfway j)); [discriminate | lia]. }
      lia. }
  pose proof (halfway_scan_first chunks delimiter halfway chunks 0 halfway Ex) as R.
  cbn zeta in R. destruct R as [R1 [R2 R3]].
  subst i. unfold stop_index. cbn zeta. fold halfway.
  split; [lia|]. split; [exact R2|]. intros k Hk. apply R3. lia.
Qed.

End HalvedFacts.

Section HalvedResults.

Variable E : str -> Encoding.

(** While every index improved on the one before, the least difference so
    far is the last one: [best_diff] is the best difference so far. *)
Lemma best_so_far_scan (chunks : list str) (delimiter : str) (halfway : Z) (k : nat) :
  (forall j, j < k ->
     (scan_diff E chunks delimiter halfway j <
      scan_best E chunks delimiter halfway 0 halfway j)%Z) ->
  best_so_far E chunks delimiter halfway k =
  scan_best E chunks delimiter halfway 0 halfway k.
Proof.
  induction k as [|k IH]; intros H; [reflexivity|].
  cbn [best_so_far]. rewrite IH by (intros j Hj; apply H; lia).
  specialize (H k ltac:(lia)).
  unfold scan_best at 2. cbn [Nat.eqb Nat.pred]. lia.
Qed.

Lemma halved_one (string delimiter p : str) :
  split string delimiter = Ok [p] ->
  halved_by_delimiter E string delimiter = Ok (string, []).
Proof. intros H. unfold halved_by_delimiter. rewrite H. reflexivity. Qed.

Lemma halved_two (string delimiter a b : str) :
  split string delimiter = Ok [a; b] ->
  halved_by_delimiter E string delimiter = Ok (a, b).
Proof. intros H. unfold halved_by_delimiter. rewrite H. reflexivity. Qed.

Lemma halved_many (string delimiter : str) (chunks : list str) :
  split string delimiter = Ok chunks -> 3 <= length chunks ->
  let i := stop_index E string delimiter chunks in
  halved_by_delimiter E string delimiter =
  Ok (join delimiter (firstn i chunks), join delimiter (skipn i chunks)).
Proof.
  intros H L. unfold halved_by_delimiter. rewrite H.
  destruct chunks as [|a [|b [|c rest]]]; simpl in L; try lia. reflexivity.
Qed.

(** A non-empty delimiter always gives a pair. *)
Lemma halved_returns (string delimiter : str) :
  delimiter <> [] ->
  exists left right, halved_by_delimiter E string delimiter = Ok (left, right).
Proof.
  intros D. unfold halved_by_delimiter. rewrite (split_Ok string delimiter D).
  pose proof (split_loop_nonempty delimiter (length string) string) as N.
  destruct (split_loop (length string) string delimiter) as [|a [|b [|c rest]]];
    [congruence | | |]; cbn [bind]; eauto.
Qed.

Lemma halved_empty_delimiter (string : str) :
  halved_by_delimiter E string [] = Raise ValueError.
Proof. reflexivity. Qed.

(** Two non-empty halves are the string cut at one occurrence of the
    delimiter, which is dropped. *)
Lemma halved_concat (string delimiter left right : str) :
  halved_by_delimiter E string delimiter = Ok (left, right) ->
  left <> [] -> right <> [] ->
  delimiter <> [] /\ string = left ++ delimiter ++ right.
Proof.
  intros H Hl Hr. unfold halved_by_delimiter in H.
  apply bind_Ok_inv in H. destruct H as [chunks [S H]].
  pose proof (split_join _ _ _ S) as [J N].
  apply split_Ok_inv in S. destruct S as [D _]. split; [exact D|].
  destruct chunks as [|a [|b [|c rest]]]; try discriminate.
  - injection H as <- <-. congruence.
  - injection H as <- <-. rewrite <- J. reflexivity.
  - set (chunks := a :: b :: c :: rest) in *.
    injection H as <- <-.
    set (i := stop_index E string delimiter chunks) in *.
    destruct (Nat.eq_dec i 0) as [Z0|NZ].
    + rewrite Z0 in Hl. simpl in Hl. congruence.
    + destruct (Nat.lt_ge_cases i (length chunks)) as [Lt|Ge].
      * rewrite join_firstn_skipn by lia. symmetry. exact J.
      * rewrite skipn_all2 in Hr by exact Ge. simpl in Hr. congruence.
Qed.

(** So both are strictly shorter than the string. *)
Lemma halved_shorter (string delimiter left right : str) :
  halved_by_delimiter E string delimiter = Ok (left, right) ->
  left <> [] -> right <> [] ->
  length left < length string /\ length right < length string.
Proof.
  intros H Hl Hr. destruct (halved_concat _ _ _ _ H Hl Hr) as [D ->].
  rewrite !length_app.
  destruct left; [congruence|]. destruct right; [congruence|].
  destruct delimiter; [congruence|]. simpl. lia.
Qed.

(** C5, as amended.  For every string and non-empty delimiter: one part
    gives the string and the empty string; two parts are returned unchanged;
    with three parts or more the scan over the left prefixes stops at the
    first index [i] whose difference to [total_tokens // 2] is not below
    the best difference so far, such an index exists, and the result is the
    parts strictly before [i] joined, and the parts from [i] on joined. *)
Theorem halved_by_delimiter_greedy (string delimiter : str) (chunks : list str) :
  split string delimiter = Ok chunks ->
  (forall p, chunks = [p] ->
     halved_by_delimiter E string delimiter = Ok (string, [])) /\
  (forall a b, chunks = [a; b] ->
     halved_by_delimiter E string delimiter = Ok (a, b)) /\
  (3 <= length chunks ->
     let halfway := (num_tokens E string GPT_MODEL / 2)%Z in
     let i := stop_index E string delimiter chunks in
     i < length chunks /\
     (scan_diff E chunks delimiter halfway i >=
      best_so_far E chunks delimiter halfway i)%Z /\
     (forall k, k < i ->
        (scan_diff E chunks delimiter halfway k <
         best_so_far E chunks delimiter halfway k)%Z) /\
     halved_by_delimiter E string delimiter =
     Ok (join delimiter (firstn i chunks), join delimiter (skipn i chunks))).
Proof.
  intros S. split; [|split].
  - intros p ->. exact (halved_one _ _ _ S).
  - intros a b ->. exact (halved_two _ _ _ _ S).
  - intros L halfway i.
    destruct (split_join _ _ _ S) as [J N].
    pose proof (stop_index_first E string delimiter chunks J N) as SI.
    cbn zeta in SI. destruct SI as [B [G F]].
    fold halfway in G, F. fold i in B, G, F.
    assert (P : forall k, k <= i ->
              best_so_far E chunks delimiter halfway k =
              scan_best E chunks delimiter halfway 0 halfway k).
    { intros k Hk. apply best_so_far_scan. intros j Hj. apply F. lia. }
    split; [exact B|]. split; [rewrite P by lia; exact G|]. split.
    + intros k Hk. rewrite P by lia. apply F. exact Hk.
    + exact (halved_many _ _ _ S L).
Qed.

(** C9.  When the delimiter occurs in the string, [halved_by_delimiter]
    returns a pair with [left + delimiter + right == string], unless the
    scan (three parts or more) stops at the very first prefix: then [left]
    is empty and [right] is the whole string. *)
Theorem halved_by_delimiter_concat (string delimiter : str) :
  delimiter <> [] ->
  (exists a b, string = a ++ delimiter ++ b) ->
  exists chunks left right,
    split string delimiter = Ok chunks /\
    2 <= length chunks /\
    halved_by_delimiter E string delimiter = Ok (left, right) /\
    if (3 <=? length chunks) && (stop_index E string delimiter chunks =? 0)
    then left = [] /\ right = string
    else string = left ++ delimiter ++ right.
Proof.
  intros D [a [b O]].
  pose proof (split_Ok string delimiter D) as S.
  set (chunks := split_loop (length string) string delimiter) in *.
  destruct (split_join _ _ _ S) as [J N].
  assert (L : 2 <= length chunks).
  { unfold chunks.
    destruct string as [|x s].
    - destruct a; [|discriminate]. destruct delimiter; [congruence | discriminate].
    - cbn [length]. exact (split_loop_occurs delimiter (length s) (x :: s) a b O). }
  destruct (Nat.leb_spec 3 (length chunks)) as [L3|L2].
  - pose proof (halved_many _ _ _ S L3) as H. cbn zeta in H.
    pose proof (stop_index_first E string delimiter chunks J N) as SI.
    cbn zeta in SI. destruct SI as [B _].
    set (i := stop_index E string delimiter chunks) in *.
    exists chunks, (join delimiter (firstn i chunks)), (join delimiter (skipn i chunks)).
    repeat split; [exact S | exact L | exact H |].
    replace (3 <=? length chunks) with true by (symmetry; apply Nat.leb_le; exact L3).
    fold i. destruct (Nat.eqb_spec i 0) as [Z0|NZ]; cbn [andb].
    + rewrite Z0. simpl. split; [reflexivity | exact J].
    + rewrite join_firstn_skipn by lia. symmetry; exact J.
  - destruct chunks as [|p [|q [|r rest]]] eqn:C; simpl in L, L2; try lia.
    exists [p; q], p, q.
    repeat split; [exact S | simpl; lia | exact (halved_two _ _ _ _ S) |].
    cbn [length Nat.leb andb]. rewrite <- J. reflexivity.
Qed.

End HalvedResults.

(** On ["a\nb\nc\nd"] with one token per character the scan stops at index
    2 and the halves are ["a\nb"] and ["c\nd"]. *)
Lemma halved_by_delimiter_greedy_witness :
  let string := lit "a" ++ [LF] ++ lit "b" ++ [LF] ++ lit "c" ++ [LF] ++ lit "d" in
  stop_index char_model string NEWLINE [lit "a"; lit "b"; lit "c"; lit "d"] = 2 /\
  halved_by_delimiter char_model string NEWLINE =
  Ok (lit "a" ++ [LF] ++ lit "b", lit "c" ++ [LF] ++ lit "d").
Proof.
  pose proof (halved_by_delimiter_greedy char_model
                (lit "a" ++ [LF] ++ lit "b" ++ [LF] ++ lit "c" ++ [LF] ++ lit "d")
                NEWLINE [lit "a"; lit "b"; lit "c"; lit "d"] eq_refl) as [_ [_ H]].
  specialize (H ltac:(simpl; lia)). cbn zeta in H.
  destruct H as [_ [_ [_ H]]].
  split; [reflexivity | exact H].
Defined.

(** C5 as worded fails: the specification cuts one part earlier than the
    code, before the index preceding the one the scan stopped at. *)
Lemma halved_as_worded_counterexample :
  let string := lit "a" ++ [LF] ++ lit "b" ++ [LF] ++ lit "c" ++ [LF] ++ lit "d" in
  let chunks := [lit "a"; lit "b"; lit "c"; lit "d"] in
  split string NEWLINE = Ok chunks /\
  stop_index char_model string NEWLINE chunks = 2 /\
  halved_as_worded char_model string NEWLINE chunks =
    (lit "a", lit "b" ++ [LF] ++ lit "c" ++ [LF] ++ lit "d") /\
  halved_by_delimiter char_model string NEWLINE =
    Ok (lit "a" ++ [LF] ++ lit "b", lit "c" ++ [LF] ++ lit "d") /\
  halved_by_delimiter char_model string NEWLINE <>
    Ok (halved_as_worded char_model string NEWLINE chunks).
Proof.
  cbn zeta. repeat split; try reflexivity.
  vm_compute. discriminate.
Qed.

Lemma halved_by_delimiter_concat_witness :
  exists chunks left right,
    split (lit "a. b") SENTENCE = Ok chunks /\
    2 <= length chunks /\
    halved_by_delimiter char_model (lit "a. b") SENTENCE = Ok (left, right) /\
    if (3 <=? length chunks) && (stop_index char_model (lit "a. b") SENTENCE chunks =? 0)
    then left = [] /\ right = lit "a. b"
    else lit "a. b" = left ++ SENTENCE ++ right.
Proof.
  apply (halved_by_delimiter_concat char_model (lit "a. b") SENTENCE).
  - discriminate.
  - exists (lit "a"), (lit "b"). reflexivity.
Defined.

(** ** [split_strings_from_subsection] *)

Section ChunkerFacts.

Variable E : str -> Encoding.

Lemma delimiters_nonempty :
  Forall (fun d : str => d <> []) [PARAGRAPH; NEWLINE; SENTENCE].
Proof. repeat constructor; discriminate. Qed.

Lemma halves_nonempty (left right : str) :
  eqb left [] || eqb right [] = false -> left <> [] /\ right <> [].
Proof.
  intros H. apply orb_false_iff in H. destruct H as [H1 H2].
  split; apply eqb_neq; assumption.
Qed.

(** What the delimiter loop returns: the fallback, or two recursive results
    under the first delimiter that gave two non-empty halves. *)
Lemma try_delimiters_chunking_inv (text : str) (recurse : str -> res chunking)
    (fallback : chunking) (delimiters : list str) (t : chunking) :
  try_delimiters_chunking E text recurse fallback delimiters = Ok t ->
  t = fallback \/
  exists delimiter left right l r,
    In delimiter delimiters /\
    halved_by_delimiter E text delimiter = Ok (left, right) /\
    left <> [] /\ right <> [] /\
    recurse left = Ok l /\ recurse right = Ok r /\
    t = Halved delimiter l r.
Proof.
  induction delimiters as [|d ds IH]; cbn [try_delimiters_chunking].
  - intros [= <-]. left; reflexivity.
  - intros H. apply bind_Ok_inv in H. destruct H as [[left right] [Hh H]].
    cbn [fst snd] in H.
    destruct (eqb left [] || eqb right []) eqn:Em.
    + destruct (IH H) as [->|[d' [l0 [r0 [l [r [I R]]]]]]]; [left; reflexivity|].
      right. exists d', l0, r0, l, r. split; [right; exact I | exact R].
    + apply halves_nonempty in Em. destruct Em as [Nl Nr].
      apply bind_Ok_inv in H. destruct H as [l [Hl H]].
      apply bind_Ok_inv in H. destruct H as [r [Hr H]].
      injection H as <-. right. exists d, left, right, l, r.
      repeat split; try assumption. left; reflexivity.
Qed.

(** The loop returns as soon as the recursive calls on shorter texts do. *)
Lemma try_delimiters_chunking_returns (text : str) (recurse : str -> res chunking)
    (fallback : chunking) (delimiters : list str) :
  Forall (fun d : str => d <> []) delimiters ->
  (forall half, length half < length text -> exists t, recurse half = Ok t) ->
  exists t, try_delimiters_chunking E text recurse fallback delimiters = Ok t.
Proof.
  intros D R. induction D as [|d ds Hd D IH]; cbn [try_delimiters_chunking].
  - eauto.
  - destruct (halved_returns E text d Hd) as [left [right Hh]].
    rewrite Hh. cbn [bind fst snd].
    destruct (eqb left [] || eqb right []) eqn:Em; [exact IH|].
    apply halves_nonempty in Em. destruct Em as [Nl Nr].
    destruct (halved_shorter E _ _ _ _ Hh Nl Nr) as [Sl Sr].
    destruct (R left Sl) as [l ->]. destruct (R right Sr) as [r ->].
    cbn [bind]. eauto.
Qed.

Lemma try_delimiters_chunking_mono (text : str) (rec1 rec2 : str -> res chunking)
    (fallback : chunking) (delimiters : list str) (t : chunking) :
  (forall half u, rec1 half = Ok u -> rec2 half = Ok u) ->
  try_delimiters_chunking E text rec1 fallback delimiters = Ok t ->
  try_delimiters_chunking E text rec2 fallback delimiters = Ok t.
Proof.
  intros M. induction delimiters as [|d ds IH]; cbn [try_delimiters_chunking]; [auto|].
  intros H. apply bind_Ok_inv in H. destruct H as [[left right] [Hh H]].
  rewrite Hh. cbn [bind fst snd] in *.
  destruct (eqb left [] || eqb right []); [auto|].
  apply bind_Ok_inv in H. destruct H as [l [Hl H]].
  apply bind_Ok_inv in H. destruct H as [r [Hr H]].
  rewrite (M _ _ Hl), (M _ _ Hr). exact H.
Qed.

(** The list-returning loop returns the leaves of the recorded run. *)
Lemma try_delimiters_chunks (text : str) (rec1 : str -> res (list str))
    (rec2 : str -> res chunking) (fallback : chunking) (delimiters : list str) :
  (forall half, rec1 half = (t <- rec2 half ;; Ok (chunks_of t))) ->
  try_delimiters E text rec1 (chunks_of fallback) delimiters =
  (t <- try_delimiters_chunking E text rec2 fallback delimiters ;; Ok (chunks_of t)).
Proof.
  intros R. induction delimiters as [|d ds IH];
    cbn [try_delimiters try_delimiters_chunking]; [reflexivity|].
  destruct (halved_by_delimiter E text d) as [[left right]|e]; [|reflexivity].
  cbn [bind fst snd].
  destruct (eqb left [] || eqb right []); [exact IH|].
  rewrite !R. destruct (rec2 left) as [l|e]; [|reflexivity].
  cbn [bind]. destruct (rec2 right) as [r|e]; reflexivity.
Qed.

Lemma split_strings_chunks (fuel : nat) (subsection : list str * str)
    (max_tokens : Z) (model : str) (max_recursion : Z) :
  split_strings_fuel E fuel subsection max_tokens model max_recursion =
  (t <- chunking_fuel E fuel subsection max_tokens model max_recursion ;;
   Ok (chunks_of t)).
Proof.
  revert subsection max_recursion.
  induction fuel as [|fuel IH]; intros [titles text] max_recursion; [reflexivity|].
  cbn [split_strings_fuel chunking_fuel].
  destruct (_ <=? max_tokens)%Z; [reflexivity|].
  destruct (max_recursion =? 0)%Z; [reflexivity|].
  apply (try_delimiters_chunks text _ _ (Truncated _ _)).
  intros half. apply IH.
Qed.

(** A call at depth budget [fuel] that returned returns the same with more. *)
Lemma chunking_fuel_mono (fuel fuel' : nat) (subsection : list str * str)
    (max_tokens : Z) (model : str) (max_recursion : Z) (t : chunking) :
  fuel <= fuel' ->
  chunking_fuel E fuel subsection max_tokens model max_recursion = Ok t ->
  chunking_fuel E fuel' subsection max_tokens model max_recursion = Ok t.
Proof.
  revert fuel' subsection max_recursion t.
  induction fuel as [|fuel IH]; intros fuel' [titles text] max_recursion t L;
    [discriminate|].
  destruct fuel' as [|fuel']; [lia|].
  cbn [chunking_fuel].
  destruct (_ <=? max_tokens)%Z; [auto|].
  destruct (max_recursion =? 0)%Z; [auto|].
  apply try_delimiters_chunking_mono.
  intros half u. apply IH. lia.
Qed.

(** Termination on the length of the text: every recursive call is on a
    strictly shorter one. *)
Lemma chunking_fuel_total (fuel : nat) (titles : list str) (text : str)
    (max_tokens : Z) (model : str) (max_recursion : Z) :
  length text < fuel ->
  exists t, chunking_fuel E fuel (titles, text) max_tokens model max_recursion = Ok t.
Proof.
  revert text max_recursion.
  induction fuel as [|fuel IH]; intros text max_recursion L; [lia|].
  cbn [chunking_fuel].
  destruct (_ <=? max_tokens)%Z; [eauto|].
  destruct (max_recursion =? 0)%Z; [eauto|].
  apply try_delimiters_chunking_returns; [exact delimiters_nonempty|].
  intros half Hh. apply IH. lia.
Qed.

(** Termination on [max_recursion]: a call with [max_recursion >= 0] nests
    at most [max_recursion] calls below itself. *)
Lemma chunking_fuel_depth (fuel : nat) (titles : list str) (text : str)
    (max_tokens : Z) (model : str) (max_recursion : Z) :
  (0 <= max_recursion)%Z -> Z.to_nat max_recursion < fuel ->
  exists t, chunking_fuel E fuel (titles, text) max_tokens model max_recursion = Ok t.
Proof.
  revert text max_recursion.
  induction fuel as [|fuel IH]; intros text max_recursion P L; [lia|].
  cbn [chunking_fuel].
  destruct (_ <=? max_tokens)%Z; [eauto|].
  destruct (Z.eqb_spec max_recursion 0) as [|NZ]; [eauto|].
  apply try_delimiters_chunking_returns; [exact delimiters_nonempty|].
  intros half _. apply IH; lia.
Qed.

Lemma chunks_of_nonempty (t : chunking) : chunks_of t <> [].
Proof.
  induction t as [s|s c|d l IHl r IHr]; cbn [chunks_of]; try discriminate.
  intros H. apply app_eq_nil in H. destruct H as [H _]. exact (IHl H).
Qed.

(** Over an [Encoding], where nothing is refused, the recursion of
    [split_strings_from_subsection] comes to an end whatever the arguments,
    and what is returned is the leaves of the run [chunking_of] records. *)
Lemma split_strings_total (subsection : list str * str)
    (max_tokens : Z) (model : str) (max_recursion : Z) :
  exists t,
    chunking_of E subsection max_tokens model max_recursion = Ok t /\
    split_strings_from_subsection E subsection max_tokens model max_recursion =
    Ok (chunks_of t).
Proof.
  destruct subsection as [titles text].
  unfold chunking_of, split_strings_from_subsection. cbn [snd].
  destruct (chunking_fuel_total (S (length text)) titles text
              max_tokens model max_recursion ltac:(lia)) as [t Ht].
  exists t. split; [exact Ht|].
  rewrite split_strings_chunks, Ht. reflexivity.
Qed.

End ChunkerFacts.

Section CeilingAndCoverage.

Variable E : str -> Encoding.

(** ["\n\n".join(titles + [text])] is the title prefix followed by the text. *)
Lemma join_titles (titles : list str) (text : str) :
  join PARAGRAPH (titles ++ [text]) = title_prefix titles ++ text.
Proof.
  induction titles as [|title titles IH]; [reflexivity|].
  rewrite <- app_comm_cons.
  rewrite join_cons by (destruct titles; discriminate).
  rewrite IH. unfold title_prefix. cbn [map concat].
  rewrite <- !app_assoc. reflexivity.
Qed.

Lemma strip_titles_join (titles : list str) (text : str) :
  strip_titles titles (join PARAGRAPH (titles ++ [text])) = text.
Proof.
  unfold strip_titles. rewrite join_titles, skipn_app, skipn_all, Nat.sub_diag.
  reflexivity.
Qed.

Lemma chunking_rebuild (fuel : nat) (titles : list str) (text : str)
    (max_tokens : Z) (model : str) (max_recursion : Z) (t : chunking) :
  chunking_fuel E fuel (titles, text) max_tokens model max_recursion = Ok t ->
  no_truncation t ->
  rebuild titles t = text /\
  Forall (fun chunk => firstn (length (title_prefix titles)) chunk = title_prefix titles)
         (chunks_of t).
Proof.
  revert text max_recursion t.
  induction fuel as [|fuel IH]; intros text max_recursion t; [discriminate|].
  cbn [chunking_fuel].
  destruct (_ <=? max_tokens)%Z.
  - intros [= <-] _. cbn [rebuild chunks_of]. split; [apply strip_titles_join|].
    constructor; [|constructor].
    rewrite join_titles, firstn_app, firstn_all, Nat.sub_diag. cbn [firstn].
    apply app_nil_r.
  - destruct (max_recursion =? 0)%Z.
    + intros [= <-] [].
    + intros H N. apply try_delimiters_chunking_inv in H.
      destruct H as [->|[d [left [right [l [r [_ [Hh [Nl [Nr [Hl [Hr ->]]]]]]]]]]]].
      * destruct N.
      * destruct N as [N1 N2].
        destruct (IH _ _ _ Hl N1) as [Rl Pl].
        destruct (IH _ _ _ Hr N2) as [Rr Pr].
        cbn [rebuild chunks_of]. rewrite Rl, Rr. split.
        -- symmetry. exact (proj2 (halved_concat E _ _ _ _ Hh Nl Nr)).
        -- apply Forall_app. split; assumption.
Qed.

(** C8.  When a run truncated nothing, every returned chunk starts with the
    title prefix, and stripping it from each chunk and putting back the
    delimiter each split consumed gives the original body text. *)
Theorem chunks_cover_body (titles : list str) (text : str)
    (max_tokens : Z) (model : str) (max_recursion : Z) (t : chunking) :
  chunking_of E (titles, text) max_tokens model max_recursion = Ok t ->
  no_truncation t ->
  split_strings_from_subsection E (titles, text) max_tokens model max_recursion =
  Ok (chunks_of t) /\
  Forall (fun chunk => firstn (length (title_prefix titles)) chunk = title_prefix titles)
         (chunks_of t) /\
  rebuild titles t = text.
Proof.
  intros Ht N. split.
  - destruct (split_strings_total E (titles, text) max_tokens model max_recursion)
      as [t' [Ht' Hs]].
    rewrite Hs. congruence.
  - destruct (chunking_rebuild _ _ _ _ _ _ _ Ht N) as [R P]. split; assumption.
Qed.

End CeilingAndCoverage.

Lemma chunks_cover_body_witness :
  let text := lit "aaaa" ++ [LF] ++ lit "bbbb" ++ [LF] ++ lit "cccc. dd" in
  let t := Halved NEWLINE
             (Halved NEWLINE (Fits (lit "T" ++ PARAGRAPH ++ lit "aaaa"))
                             (Fits (lit "T" ++ PARAGRAPH ++ lit "bbbb")))
             (Halved SENTENCE (Fits (lit "T" ++ PARAGRAPH ++ lit "cccc"))
                              (Fits (lit "T" ++ PARAGRAPH ++ lit "dd"))) in
  split_strings_from_subsection char_model ([lit "T"], text) 7 GPT_MODEL 5 =
  Ok (chunks_of t) /\
  Forall (fun chunk => firstn (length (title_prefix [lit "T"])) chunk =
                       title_prefix [lit "T"])
         (chunks_of t) /\
  rebuild [lit "T"] t = text.
Proof.
  cbn zeta.
  apply (chunks_cover_body char_model [lit "T"]
           (lit "aaaa" ++ [LF] ++ lit "bbbb" ++ [LF] ++ lit "cccc. dd")
           7 GPT_MODEL 5).
  - reflexivity.
  - simpl. tauto.
Defined.

(** ** [str(n)] *)

Lemma uint_chars_inj (d d' : Decimal.uint) :
  uint_chars d = uint_chars d' -> d = d'.
Proof.
  revert d'; induction d; intros d'; destruct d'; cbn [uint_chars];
    intros H; try discriminate; try reflexivity;
    injection H as H; f_equal; auto.
Qed.

Lemma uint_chars_digit (d : Decimal.uint) (c : char) (s : str) :
  uint_chars d = c :: s -> (48 <= c <= 57)%N.
Proof. destruct d; cbn [uint_chars]; intros [= <- _]; lia. Qed.

(** Different integers print differently. *)
Lemma str_of_int_inj (n n' : Z) : str_of_int n = str_of_int n' -> n = n'.
Proof.
  unfold str_of_int. intros H. apply DecimalZ.to_int_inj.
  destruct (Z.to_int n) as [d|d], (Z.to_int n') as [d'|d'].
  - f_equal. apply uint_chars_inj. exact H.
  - apply uint_chars_digit in H. lia.
  - symmetry in H. apply uint_chars_digit in H. lia.
  - injection H as H. f_equal. apply uint_chars_inj. exact H.
Qed.

Lemma StronglySorted_snoc (ks : list Z) (m : Z) :
  StronglySorted Z.lt ks -> Forall (fun k => k < m)%Z ks ->
  StronglySorted Z.lt (ks ++ [m]).
Proof.
  induction 1 as [|k ks S IH F]; intros B; cbn [app].
  - constructor; constructor.
  - inversion B; subst. constructor; [auto|].
    apply Forall_app. split; [exact F | constructor; [assumption | constructor]].
Qed.

Lemma StronglySorted_lt_NoDup (ks : list Z) :
  StronglySorted Z.lt ks -> NoDup ks.
Proof.
  induction 1 as [|k ks S IH F]; constructor; [|exact IH].
  intros I. rewrite Forall_forall in F. specialize (F k I). lia.
Qed.

(** ** [split_into_sections] *)

Section SectionFacts.

Variable U : Ucd.

(** An iteration is one of three things. *)
Lemma sections_step_cases (st st' : sections_state) (line : str) :
  sections_step U st line = Ok st' ->
  (is_marker U st line = Ok true /\ st' = open_section st) \/
  (is_marker U st line = Ok false /\ active st = true /\ st' = append_line st line) \/
  (is_marker U st line = Ok false /\ active st = false /\ st' = st).
Proof.
  unfold sections_step. intros H.
  apply bind_Ok_inv in H. destruct H as [[|] [M H]].
  - left. split; [exact M|]. injection H as <-. reflexivity.
  - right. destruct (active st) eqn:A.
    + left. destruct (tmp st) as [lines|] eqn:T; [|discriminate].
      injection H as <-. repeat split; try assumption.
      unfold append_line. rewrite T, A. reflexivity.
    + right. injection H as <-. auto.
Qed.

Lemma sections_inv_init : sections_inv sections_init.
Proof.
  unfold sections_inv, sections_init; cbn.
  repeat split; try congruence; try lia; try constructor.
  exists []. repeat split; constructor.
Qed.

Lemma sections_inv_step (st st' : sections_state) (line : str) :
  sections_inv st -> sections_step U st line = Ok st' -> sections_inv st'.
Proof.
  intros [[ks [Ids [Srt Bnd]]] [Ne [P [A T]]]] H.
  apply sections_step_cases in H.
  destruct H as [[_ ->]|[[_ [Act ->]]|[_ [_ ->]]]].
  - unfold sections_inv, open_section; cbn.
    assert (Bnd' : Forall (fun k => 1 <= k < match_tok st + 1)%Z ks).
    { eapply Forall_impl; [|exact Bnd]. cbn. intros; lia. }
    repeat split; try congruence; try lia.
    + destruct (tmp st) as [[|l lines]|] eqn:Tm.
      * exists ks. auto.
      * destruct T as [_ T1]; [congruence|].
        exists (ks ++ [match_tok st]). repeat split.
        -- rewrite !map_app, Ids. reflexivity.
        -- apply StronglySorted_snoc; [exact Srt|].
           eapply Forall_impl; [|exact Bnd]. cbn. intros; lia.
        -- apply Forall_app. split; [exact Bnd'|]. constructor; [lia | constructor].
      * exists ks. auto.
    + destruct (tmp st) as [[|l lines]|]; try exact Ne.
      apply Forall_app. split; [exact Ne|]. constructor; [discriminate | constructor].
  - specialize (A Act). destruct (tmp st) as [lines|] eqn:Tm; [|congruence].
    destruct (T ltac:(discriminate)) as [_ T1].
    unfold sections_inv, append_line; cbn. rewrite Tm; cbn.
    split; [exists ks; auto|]. split; [exact Ne|]. split; [exact P|].
    split; [discriminate | auto].
  - unfold sections_inv. split; [exists ks; auto|]. auto.
Qed.

Lemma sections_inv_loop (lines : list str) (st st' : sections_state) :
  sections_inv st -> sections_loop U st lines = Ok st' -> sections_inv st'.
Proof.
  revert st; induction lines as [|line lines IH]; intros st I; cbn [sections_loop].
  - intros [= <-]. exact I.
  - intros H. apply bind_Ok_inv in H. destruct H as [st1 [S H]].
    exact (IH _ (sections_inv_step _ _ _ I S) H).
Qed.

Lemma sections_loop_app (pre post : list str) (st : sections_state) :
  sections_loop U st (pre ++ post) =
  (st' <- sections_loop U st pre ;; sections_loop U st' post).
Proof.
  revert st; induction pre as [|line pre IH]; intros st; cbn [app sections_loop bind].
  - reflexivity.
  - destruct (sections_step U st line) as [st1|e]; cbn [bind]; [apply IH | reflexivity].
Qed.

(** A line that is not the expected marker is body text: buffered when a
    section is open, dropped before the first marker. *)
Lemma sections_step_body (st : sections_state) (line : str) :
  sections_inv st -> is_marker U st line = Ok false ->
  sections_step U st line = Ok (if active st then append_line st line else st).
Proof.
  intros [_ [_ [_ [A _]]]] M. unfold sections_step. rewrite M. cbn [bind].
  destruct (active st) eqn:Act; [|reflexivity].
  specialize (A eq_refl). destruct (tmp st) as [lines|] eqn:T; [|congruence].
  unfold append_line. rewrite T, Act. reflexivity.
Qed.

Lemma sections_step_marker (st : sections_state) (line : str) :
  is_marker U st line = Ok true ->
  sections_step U st line = Ok (open_section st).
Proof. intros M. unfold sections_step. rewrite M. reflexivity. Qed.

(** Body lines after a marker only grow the buffer. *)
Lemma sections_loop_body (body : list str) (st : sections_state) (buffer : list str) :
  tmp st = Some buffer -> active st = true ->
  Forall (fun line => is_marker U st line = Ok false) body ->
  sections_loop U st body =
  Ok {| res_ := res_ st; tmp := Some (buffer ++ body);
        active := true; match_tok := match_tok st |}.
Proof.
  revert st buffer; induction body as [|line body IH]; intros st buffer T A F.
  - cbn [sections_loop]. rewrite app_nil_r. destruct st; cbn in *. congruence.
  - inversion F as [|? ? M F']; subst. cbn [sections_loop].
    unfold sections_step at 1. rewrite M. cbn [bind]. rewrite A, T. cbn [bind].
    rewrite (IH _ (buffer ++ [line])); cbn; try reflexivity.
    + rewrite <- app_assoc. reflexivity.
    + exact F'.
Qed.

End SectionFacts.

(** ** The claims about [split_into_sections] *)

Section SectionClaims.

Variable U : Ucd.

Lemma is_marker_match_tok (st st' : sections_state) (line : str) :
  match_tok st = match_tok st' -> is_marker U st line = is_marker U st' line.
Proof. intros M. unfold is_marker. rewrite M. reflexivity. Qed.

Lemma NoDup_str_of_int (ks : list Z) : NoDup ks -> NoDup (map str_of_int ks).
Proof.
  induction 1 as [|k ks N _ IH]; cbn [map]; constructor; [|exact IH].
  intros I. apply in_map_iff in I. destruct I as [k' [Eq I]].
  apply str_of_int_inj in Eq. subst. exact (N I).
Qed.

(** C3.  After an accepted marker, lines that are not the next marker only
    fill the buffer: the list returned at the end of the input is the one
    the marker left, whatever those lines are, and they are emitted (under
    the id of the marker) only if the next marker follows them. *)
Theorem no_final_flush (pre : list str) (marker : str) (body : list str)
    (st : sections_state) :
  sections_loop U sections_init pre = Ok st ->
  is_marker U st marker = Ok true ->
  Forall (fun line => is_marker U (open_section st) line = Ok false) body ->
  sections_loop U sections_init (pre ++ marker :: body) =
    Ok {| res_ := res_ (open_section st); tmp := Some body;
          active := true; match_tok := match_tok st + 1 |} /\
  split_into_sections U (pre ++ marker :: body) = Ok (res_ (open_section st)) /\
  split_into_sections U (pre ++ [marker]) = Ok (res_ (open_section st)) /\
  forall closing,
    is_marker U (open_section st) closing = Ok true -> body <> [] ->
    split_into_sections U (pre ++ marker :: body ++ [closing]) =
    Ok (res_ (open_section st) ++ [(str_of_int (match_tok st + 1), body)]).
Proof.
  intros Hpre M F.
  assert (L : forall post,
            sections_loop U sections_init (pre ++ marker :: post) =
            sections_loop U (open_section st) post).
  { intros post. rewrite sections_loop_app, Hpre. cbn [bind sections_loop].
    rewrite (sections_step_marker U st marker M). reflexivity. }
  assert (B : sections_loop U (open_section st) body =
              Ok {| res_ := res_ (open_section st); tmp := Some body;
                    active := true; match_tok := match_tok st + 1 |}).
  { rewrite (sections_loop_body U body (open_section st) []); auto. }
  split; [rewrite L; exact B|]. split; [|split].
  - unfold split_into_sections. rewrite L, B. reflexivity.
  - unfold split_into_sections. rewrite L. reflexivity.
  - intros closing C N. unfold split_into_sections.
    rewrite L, sections_loop_app, B. cbn [bind sections_loop].
    rewrite sections_step_marker
      by (rewrite <- C; apply is_marker_match_tok; reflexivity).
    cbn. destruct body; [congruence | reflexivity].
Qed.

(** C6, as amended.  The ids emitted, in emission order, are the decimal
    forms of strictly increasing integers from 1 up (so no id is emitted
    twice), every emitted section has at least one line, and an all-digit
    line whose value is not one more than the last accepted marker is body
    text: buffered in an open section, dropped before the first marker. *)
Theorem section_ids_increasing (lines : list str) (st : sections_state) :
  sections_loop U sections_init lines = Ok st ->
  split_into_sections U lines = Ok (res_ st) /\
  (exists ks,
     map fst (res_ st) = map str_of_int ks /\
     StronglySorted Z.lt ks /\
     Forall (fun k => 1 <= k < match_tok st)%Z ks) /\
  NoDup (map fst (res_ st)) /\
  Forall (fun s : str * list str => snd s <> []) (res_ st) /\
  forall line n,
    isnumeric U (strip U line) = true -> int U line = Ok n ->
    n <> (match_tok st + 1)%Z ->
    sections_step U st line = Ok (if active st then append_line st line else st).
Proof.
  intros H.
  pose proof (sections_inv_loop U lines _ _ sections_inv_init H) as I.
  pose proof I as [[ks [Ids [Srt Bnd]]] [Ne _]].
  split; [unfold split_into_sections; rewrite H; reflexivity|].
  split; [exists ks; auto|]. split; [|split; [exact Ne|]].
  - rewrite Ids. apply NoDup_str_of_int, StronglySorted_lt_NoDup. exact Srt.
  - intros line n Num Int Neq. apply sections_step_body; [exact I|].
    unfold is_marker. rewrite Num, Int. cbn [bind].
    destruct (Z.eqb_spec n (match_tok st + 1)); [congruence | reflexivity].
Qed.

End SectionClaims.

(** ** Databases that agree on the characters of the input *)

Section UcdAgreement.

Variables U V : Ucd.

Lemma lstrip_ext (s : str) :
  Forall (ucd_agree U V) s -> lstrip U s = lstrip V s.
Proof.
  induction 1 as [|c s [Sp _] _ IH]; cbn [lstrip]; [reflexivity|].
  rewrite <- Sp. destruct (isspace U c); [exact IH | reflexivity].
Qed.

Lemma lstrip_Forall (P : char -> Prop) (s : str) :
  Forall P s -> Forall P (lstrip U s).
Proof.
  induction 1 as [|c s Pc F IH]; cbn [lstrip]; [constructor|].
  destruct (isspace U c); [exact IH | constructor; assumption].
Qed.

Lemma strip_Forall (P : char -> Prop) (s : str) :
  Forall P s -> Forall P (strip U s).
Proof.
  intros F. unfold strip, rstrip.
  apply Forall_rev, lstrip_Forall, Forall_rev, lstrip_Forall, F.
Qed.

Lemma strip_ext (s : str) :
  Forall (ucd_agree U V) s -> strip U s = strip V s.
Proof.
  intros F. unfold strip, rstrip. rewrite <- (lstrip_ext s F).
  rewrite lstrip_ext; [reflexivity|].
  apply Forall_rev, lstrip_Forall, F.
Qed.

Lemma isnumeric_ext (s : str) :
  Forall (ucd_agree U V) s -> isnumeric U s = isnumeric V s.
Proof.
  intros F. unfold isnumeric. destruct s as [|c s]; [reflexivity|].
  induction F as [|x xs [_ [Nm _]] _ IH]; cbn [forallb]; [reflexivity|].
  rewrite Nm, IH. reflexivity.
Qed.

Lemma int_digits_ext (s : str) (acc : Z) :
  Forall (ucd_agree U V) s -> int_digits U acc s = int_digits V acc s.
Proof.
  intros F. revert acc.
  induction F as [|c s [_ [_ Dc]] _ IH]; intros acc; cbn [int_digits]; [reflexivity|].
  rewrite Dc. destruct (decimal V c); [apply IH | reflexivity].
Qed.

Lemma int_lstrip_ext (s : str) :
  Forall (ucd_agree U V) s -> int_lstrip U s = int_lstrip V s.
Proof.
  induction 1 as [|c s [Sp _] _ IH]; cbn [int_lstrip]; [reflexivity|].
  unfold int_isspace. rewrite <- Sp.
  destruct (isspace U c && _); [exact IH | reflexivity].
Qed.

Lemma int_lstrip_Forall (P : char -> Prop) (s : str) :
  Forall P s -> Forall P (int_lstrip U s).
Proof.
  induction 1 as [|c s Pc F IH]; cbn [int_lstrip]; [constructor|].
  destruct (int_isspace U c); [exact IH | constructor; assumption].
Qed.

Lemma int_strip_Forall (P : char -> Prop) (s : str) :
  Forall P s -> Forall P (int_strip U s).
Proof.
  intros F. unfold int_strip.
  apply Forall_rev, int_lstrip_Forall, Forall_rev, int_lstrip_Forall, F.
Qed.

Lemma int_strip_ext (s : str) :
  Forall (ucd_agree U V) s -> int_strip U s = int_strip V s.
Proof.
  intros F. unfold int_strip. rewrite <- (int_lstrip_ext s F).
  rewrite int_lstrip_ext; [reflexivity|].
  apply Forall_rev, int_lstrip_Forall, F.
Qed.

Lemma int_ext (s : str) :
  Forall (ucd_agree U V) s -> int U s = int V s.
Proof.
  intros F. unfold int. rewrite <- (int_strip_ext s F).
  pose proof (int_strip_Forall _ s F) as G.
  destruct (int_strip U s); [reflexivity|].
  destruct (_ <? _)%Z; [reflexivity | apply int_digits_ext, G].
Qed.

Lemma sections_step_ext (st : sections_state) (line : str) :
  Forall (ucd_agree U V) line ->
  sections_step U st line = sections_step V st line.
Proof.
  intros F. unfold sections_step, is_marker.
  rewrite <- (strip_ext line F), <- (int_ext line F).
  rewrite (isnumeric_ext (strip U line)) by (apply strip_Forall, F).
  reflexivity.
Qed.

Lemma split_into_sections_ext (lines : list str) :
  Forall (Forall (ucd_agree U V)) lines ->
  split_into_sections U lines = split_into_sections V lines.
Proof.
  intros F. unfold split_into_sections. f_equal.
  generalize sections_init as st.
  induction F as [|line lines A _ IH]; intros st; cbn [sections_loop]; [reflexivity|].
  rewrite (sections_step_ext st line A).
  destruct (sections_step V st line); cbn [bind]; [apply IH | reflexivity].
Qed.

End UcdAgreement.

Lemma ucd_ascii_agree (U : Ucd) (lines : list str) :
  ucd_ascii U ->
  forallb (forallb (fun c => c <? 128)%N) lines = true ->
  Forall (Forall (ucd_agree U ascii_ucd)) lines.
Proof.
  intros A H. rewrite forallb_forall in H.
  apply Forall_forall. intros l Hl. specialize (H l Hl).
  rewrite forallb_forall in H.
  apply Forall_forall. intros c Hc. apply A, N.ltb_lt, H, Hc.
Qed.

Lemma ascii_ucd_ascii : ucd_ascii ascii_ucd.
Proof. intros c _. repeat split. Qed.

(** C2, on the code.  On the example lines, with any database that knows the
    ASCII characters as Python does, [split_into_sections] returns section
    ["1"] only: the lines after the marker ["2\n"] are never emitted.
    [split_into_qa_pairs] then gives ["1"] its one pair. *)
Theorem example_end_to_end (U : Ucd) :
  ucd_ascii U ->
  split_into_sections U example_lines =
    Ok [(lit "1", [line "<Q> What is 2+2?"; line "4"])] /\
  split_into_sections U example_lines <>
    Ok [(lit "1", [line "<Q> What is 2+2?"; line "4"]);
        (lit "2", [line "<Q> What is the capital of France?"; line "Paris"])] /\
  split_into_qa_pairs [(lit "1", [line "<Q> What is 2+2?"; line "4"])] =
    [(lit "1", [([line "What is 2+2?"], line "4")])].
Proof.
  intros A.
  assert (S : split_into_sections U example_lines =
              Ok [(lit "1", [line "<Q> What is 2+2?"; line "4"])]).
  { rewrite (split_into_sections_ext U ascii_ucd)
      by (apply ucd_ascii_agree; [exact A | reflexivity]).
    reflexivity. }
  split; [exact S|]. split; [|reflexivity].
  rewrite S. discriminate.
Qed.

Lemma example_end_to_end_witness :
  split_into_sections ascii_ucd example_lines =
    Ok [(lit "1", [line "<Q> What is 2+2?"; line "4"])].
Proof. exact (proj1 (example_end_to_end ascii_ucd ascii_ucd_ascii)). Defined.

Lemma no_final_flush_witness :
  split_into_sections ascii_ucd ([line "1"; line "a"] ++ line "2" :: [line "b"; line "c"]) =
    Ok [(lit "1", [line "a"])] /\
  split_into_sections ascii_ucd ([line "1"; line "a"] ++ [line "2"]) =
    Ok [(lit "1", [line "a"])].
Proof.
  pose proof (no_final_flush ascii_ucd [line "1"; line "a"] (line "2")
                [line "b"; line "c"]
                {| res_ := []; tmp := Some [line "a"]; active := true; match_tok := 1 |}
                eq_refl eq_refl
                ltac:(repeat constructor)) as [_ [H1 [H2 _]]].
  split; [exact H1 | exact H2].
Defined.

Lemma section_ids_increasing_witness :
  split_into_sections ascii_ucd [line "1"; line "a"; line "7"; line "2"] =
    Ok [(lit "1", [line "a"; line "7"])] /\
  NoDup (map fst [(lit "1", [line "a"; line "7"])]).
Proof.
  pose proof (section_ids_increasing ascii_ucd
                [line "1"; line "a"; line "7"; line "2"]
                {| res_ := [(lit "1", [line "a"; line "7"])]; tmp := Some [];
                   active := true; match_tok := 2 |}
                eq_refl) as [H1 [_ [H2 _]]].
  split; [exact H1 | exact H2].
Defined.

(** C6 as worded fails: a section with no line is closed without being
    emitted, so the first id emitted here is ["2"]. *)
Lemma section_ids_counterexample :
  split_into_sections ascii_ucd [line "1"; line "2"; line "x"; line "3"] =
    Ok [(lit "2", [line "x"])] /\
  ~ contiguous_from_one (map fst [(lit "2", [line "x"])]).
Proof.
  split; [reflexivity|]. unfold contiguous_from_one. vm_compute. discriminate.
Qed.

(** ** [parse_and_join_ans] and [split_into_qa_pairs] *)

Lemma join_empty_sep (parts : list str) : join [] parts = concat parts.
Proof.
  induction parts as [|p parts IH]; [reflexivity|].
  destruct parts as [|q parts]; [cbn; rewrite app_nil_r; reflexivity|].
  rewrite join_cons by discriminate. cbn [app concat]. rewrite IH. reflexivity.
Qed.

Lemma mem_dropped (tok : str) :
  mem tok [[LF]; [TAB]; [EM_SPACE; LF]] = true <-> dropped tok.
Proof.
  unfold mem, dropped. cbn [existsb].
  rewrite !orb_true_iff, !eqb_eq. intuition discriminate.
Qed.

Lemma parse_and_join_ans_cons (tok : str) (ans : list str) :
  parse_and_join_ans (tok :: ans) =
  if mem tok [[LF]; [TAB]; [EM_SPACE; LF]]
  then parse_and_join_ans ans
  else tok ++ parse_and_join_ans ans.
Proof.
  unfold parse_and_join_ans. rewrite !join_empty_sep. cbn [filter].
  destruct (mem tok _); reflexivity.
Qed.

(** C7.  [parse_and_join_ans] drops exactly the lines equal to ["\n"],
    ["\t"] or an em-space followed by ["\n"] and concatenates the others in
    order with nothing between them; on the specification's example it
    returns ["Parisisthe capital"]. *)
Theorem parse_and_join_ans_filter :
  (forall ans s, joined ans s <-> s = parse_and_join_ans ans) /\
  parse_and_join_ans [lit "Paris"; [LF]; lit "is"; [TAB]; lit "the capital"] =
  lit "Parisisthe capital".
Proof.
  split; [|reflexivity].
  intros ans s. split.
  - induction 1 as [|tok ans s D _ IH|tok ans s D _ IH];
      [reflexivity | |]; rewrite parse_and_join_ans_cons.
    + apply mem_dropped in D. rewrite D. exact IH.
    + destruct (mem tok _) eqn:M; [apply mem_dropped in M; contradiction|].
      rewrite IH. reflexivity.
  - intros ->. induction ans as [|tok ans IH]; [constructor|].
    rewrite parse_and_join_ans_cons.
    destruct (mem tok _) eqn:M.
    + apply joined_drop; [apply mem_dropped; exact M | exact IH].
    + apply joined_keep; [|exact IH].
      intros D. apply mem_dropped in D. congruence.
Qed.

(** C4, on the code.  [questions] and [ans] are not reset between sections:
    the pair flushed at the end of section ["1"] is emitted again under
    section ["2"]. *)
Theorem qa_units_cross_sections :
  let sections := [(lit "1", [line "<Q> a"; line "x"]);
                   (lit "2", [line "<Q> b"; line "y"])] in
  split_into_qa_pairs sections =
    [(lit "1", [([line "a"], line "x")]);
     (lit "2", [([line "a"], line "x"); ([line "b"], line "y")])] /\
  qa_pairs_per_section sections =
    [(lit "1", [([line "a"], line "x")]);
     (lit "2", [([line "b"], line "y")])] /\
  split_into_qa_pairs sections <> qa_pairs_per_section sections.
Proof.
  cbn zeta. split; [reflexivity|]. split; [reflexivity|].
  vm_compute. discriminate.
Qed.

(** ** Sharing in [split_into_qa_pairs]

    The list bound to [questions] is stored in [tmp] and stays bound to the
    variable until the next question line.  No append reaches a stored
    list: reading the code on values gives the same result. *)

Lemma heap_append_length (h : list (list str)) (a : nat) (x : str) :
  length (heap_append h a x) = length h.
Proof.
  revert a; induction h as [|l h IH]; intros [|a]; cbn; auto.
Qed.

Lemma heap_append_same (h : list (list str)) (a : nat) (x : str) :
  a < length h -> nth a (heap_append h a x) [] = nth a h [] ++ [x].
Proof.
  revert a; induction h as [|l h IH]; intros [|a]; cbn; intros L;
    try lia; [reflexivity | apply IH; lia].
Qed.

Lemma heap_append_other (h : list (list str)) (a r : nat) (x : str) :
  r <> a -> nth r (heap_append h a x) [] = nth r h [].
Proof.
  revert a r; induction h as [|l h IH]; intros [|a] [|r]; cbn; intros N;
    try reflexivity; try congruence. apply IH. congruence.
Qed.

(** One line: the store step and the value step agree, and every frozen
    unit stays frozen and keeps its questions. *)
Lemma qa_line_sim (st st' : qa_state) (tmp tmp' : list (nat * str)) (line : str) :
  qa_line (st, tmp) line = (st', tmp') ->
  questions st < length (heap st) ->
  Forall (frozen st) tmp ->
  questions st' < length (heap st') /\
  Forall (frozen st') tmp' /\
  (forall u, frozen st u -> frozen st' u /\ deref (heap st') u = deref (heap st) u) /\
  qa_line_pure (qa_value st, map (deref (heap st)) tmp) line =
  (qa_value st', map (deref (heap st')) tmp').
Proof.
  intros H Q F. unfold qa_line in H. unfold qa_line_pure, qa_value.
  destruct (startswith line (lit "<Q>")).
  - destruct (Nat.ltb_spec 0 (length (ans st))) as [NE|EM].
    + (* flush, rebind [questions] to a fresh list, append to it *)
      injection H as <- <-. cbn [heap questions ans].
      assert (Old : forall r, r < length (heap st) ->
                nth r (heap_append (heap st ++ [[]]) (length (heap st))
                         (slice_from line 4)) [] = nth r (heap st) []).
      { intros r Hr. rewrite heap_append_other by lia. apply app_nth1. exact Hr. }
      assert (Keep : forall u, fst u < length (heap st) ->
                frozen {| heap := heap_append (heap st ++ [[]]) (length (heap st))
                                    (slice_from line 4);
                          questions := length (heap st); ans := [] |} u /\
                deref (heap_append (heap st ++ [[]]) (length (heap st))
                         (slice_from line 4)) u = deref (heap st) u).
      { intros u Hu. split.
        - split; cbn [heap questions ans].
          + rewrite heap_append_length, length_app. cbn. lia.
          + lia.
        - unfold deref. rewrite Old by exact Hu. reflexivity. }
      split; [rewrite heap_append_length, length_app; cbn; lia|].
      split; [|split].
      * apply Forall_app. split.
        -- eapply Forall_impl; [|exact F]. intros u [Hu _]. apply Keep, Hu.
        -- constructor; [|constructor]. apply Keep. exact Q.
      * intros u [Hu _]. apply Keep, Hu.
      * rewrite heap_append_same by (rewrite length_app; cbn; lia).
        rewrite app_nth2, Nat.sub_diag by lia. cbn [nth app].
        rewrite map_app. cbn [map]. f_equal. f_equal.
        -- apply map_ext_in. intros u Hu. rewrite Forall_forall in F.
           symmetry. apply Keep, F, Hu.
        -- f_equal. unfold deref. cbn [fst snd]. rewrite Old by exact Q. reflexivity.
    + (* [ans] is empty: append to the list [questions] is bound to *)
      assert (A : ans st = []) by (destruct (ans st); [reflexivity | cbn in EM; lia]).
      injection H as <- <-. cbn [heap questions ans].
      assert (Keep : forall u, frozen st u ->
                frozen {| heap := heap_append (heap st) (questions st) (slice_from line 4);
                          questions := questions st; ans := ans st |} u /\
                deref (heap_append (heap st) (questions st) (slice_from line 4)) u =
                deref (heap st) u).
      { intros u [Hu Hq]. split.
        - split; cbn [heap questions ans]; [rewrite heap_append_length; exact Hu | exact Hq].
        - unfold deref. rewrite heap_append_other; [reflexivity|].
          intros Eq. exact (Hq Eq A). }
      split; [rewrite heap_append_length; exact Q|]. split; [|split].
      * eapply Forall_impl; [|exact F]. intros u Hu. apply Keep, Hu.
      * exact Keep.
      * rewrite heap_append_same by exact Q. rewrite A. f_equal.
        apply map_ext_in. intros u Hu. rewrite Forall_forall in F.
        symmetry. apply Keep, F, Hu.
  - (* an answer line: the store is untouched, [ans] is no longer empty *)
    injection H as <- <-. cbn [heap questions ans].
    split; [exact Q|].
    assert (Keep : forall u, frozen st u ->
              frozen {| heap := heap st; questions := questions st;
                        ans := ans st ++ [line] |} u).
    { intros u [Hu _]. split; cbn [heap questions ans]; [exact Hu|].
      intros _ E. apply app_eq_nil in E. destruct E; discriminate. }
    split; [|split].
    + eapply Forall_impl; [|exact F]. exact Keep.
    + intros u Hu. split; [apply Keep, Hu | reflexivity].
    + reflexivity.
Qed.

(** All the lines of a section. *)
Lemma qa_lines_sim (text : list str) (st st' : qa_state)
    (tmp tmp' : list (nat * str)) :
  fold_left qa_line text (st, tmp) = (st', tmp') ->
  questions st < length (heap st) ->
  Forall (frozen st) tmp ->
  questions st' < length (heap st') /\
  Forall (frozen st') tmp' /\
  (forall u, frozen st u -> frozen st' u /\ deref (heap st') u = deref (heap st) u) /\
  fold_left qa_line_pure text (qa_value st, map (deref (heap st)) tmp) =
  (qa_value st', map (deref (heap st')) tmp').
Proof.
  revert st tmp; induction text as [|line text IH]; intros st tmp H Q F.
  - cbn in H. injection H as <- <-. cbn. auto.
  - cbn [fold_left] in *.
    destruct (qa_line (st, tmp) line) as [st1 tmp1] eqn:L.
    destruct (qa_line_sim _ _ _ _ _ L Q F) as [Q1 [F1 [K1 P1]]].
    destruct (IH _ _ H Q1 F1) as [Q2 [F2 [K2 P2]]].
    split; [exact Q2|]. split; [exact F2|]. split.
    + intros u Hu. destruct (K1 u Hu) as [Fu Du]. destruct (K2 u Fu) as [Fu' Du'].
      split; [exact Fu' | congruence].
    + rewrite P1. exact P2.
Qed.

Lemma qa_sections_sim (sections : list (str * list str)) (st st' : qa_state)
    (res res' : list (str * list (nat * str))) :
  fold_left qa_section sections (st, res) = (st', res') ->
  questions st < length (heap st) ->
  Forall (fun entry => Forall (frozen st) (snd entry)) res ->
  fold_left qa_section_pure sections (qa_value st, map (deref_section (heap st)) res) =
  (qa_value st', map (deref_section (heap st')) res').
Proof.
  revert st res; induction sections as [|[section text] sections IH];
    intros st res H Q F.
  - cbn in H. injection H as <- <-. reflexivity.
  - cbn [fold_left] in *. unfold qa_section at 2 in H. unfold qa_section_pure at 2.
    destruct (fold_left qa_line text (st, [])) as [st1 tmp1] eqn:L.
    destruct (qa_lines_sim _ _ _ _ _ L Q (Forall_nil _)) as [Q1 [F1 [K1 P1]]].
    unfold qa_value at 1. fold (qa_value st). cbn [map] in P1. rewrite P1.
    unfold qa_value at 1.
    set (tmp2 := if (0 <? length (ans st1))%nat
                 then tmp1 ++ [(questions st1, parse_and_join_ans (ans st1))]
                 else tmp1) in *.
    assert (F2 : Forall (frozen st1) tmp2).
    { unfold tmp2. destruct (Nat.ltb_spec 0 (length (ans st1))) as [NE|_]; [|exact F1].
      apply Forall_app. split; [exact F1|]. constructor; [|constructor].
      split; cbn [fst]; [exact Q1|]. intros _ E. rewrite E in NE. cbn in NE. lia. }
    specialize (IH st1 (res ++ [(section, tmp2)]) H Q1).
    rewrite <- IH.
    + f_equal. unfold qa_value. f_equal. rewrite map_app. cbn [map]. f_equal.
      * apply map_ext_in. intros [s t] Hin. unfold deref_section. cbn [fst snd].
        f_equal. apply map_ext_in. intros u Hu.
        rewrite Forall_forall in F. specialize (F _ Hin). cbn [snd] in F.
        rewrite Forall_forall in F. symmetry. apply K1, F, Hu.
      * unfold deref_section. cbn [fst snd]. f_equal. f_equal. unfold tmp2.
        destruct (0 <? length (ans st1))%nat; [|reflexivity].
        rewrite map_app. reflexivity.
    + apply Forall_app. split.
      * eapply Forall_impl; [|exact F]. intros [s t] Ft. cbn [snd] in *.
        eapply Forall_impl; [|exact Ft]. intros u Hu. apply K1, Hu.
      * constructor; [exact F2 | constructor].
Qed.

(** Reading [split_into_qa_pairs] on values gives what the store gives. *)
Lemma split_into_qa_pairs_values (sections : list (str * list str)) :
  split_into_qa_pairs sections = split_into_qa_pairs_pure sections.
Proof.
  unfold split_into_qa_pairs, split_into_qa_pairs_pure.
  destruct (fold_left qa_section sections (qa_init, [])) as [st res] eqn:H.
  apply qa_sections_sim in H; [|cbn; lia | constructor].
  cbn [map] in H. unfold qa_value at 1 in H. cbn in H. rewrite H. reflexivity.
Qed.

(** * Further properties of the code *)

(** ** [halved_by_delimiter] and [truncated_string] *)

Section HalvedExtras.

Variable E : str -> Encoding.

(** A delimiter that does not occur leaves one part. *)
Lemma split_absent (string delimiter : str) :
  delimiter <> [] ->
  (forall a b, string <> a ++ delimiter ++ b) ->
  split string delimiter = Ok [string].
Proof.
  intros D A. rewrite (split_Ok string delimiter D). f_equal.
  destruct string as [|x s]; [reflexivity|].
  cbn [length split_loop].
  destruct (find (x :: s) delimiter) as [i|] eqn:F; [|reflexivity].
  exfalso. exact (A _ _ (find_Some _ _ _ F)).
Qed.

Lemma halved_absent (string delimiter : str) :
  delimiter <> [] ->
  (forall a b, string <> a ++ delimiter ++ b) ->
  halved_by_delimiter E string delimiter = Ok (string, []).
Proof.
  intros D A. exact (halved_one E _ _ _ (split_absent _ _ D A)).
Qed.

Lemma app_longer (s d r : str) : d <> [] -> s <> s ++ d ++ r.
Proof.
  intros D H. apply (f_equal (@length _)) in H.
  rewrite !length_app in H. destruct d; [congruence | cbn in H; lia].
Qed.

Lemma nil_no_occurrence (delimiter a b : str) :
  delimiter <> [] -> [] <> a ++ delimiter ++ b.
Proof.
  intros D H. destruct a; [|discriminate]. destruct delimiter; [congruence | discriminate].
Qed.

(** What [halved_by_delimiter] returns, case by case. *)
Lemma halved_shape (string delimiter : str) :
  delimiter <> [] ->
  exists left right,
    halved_by_delimiter E string delimiter = Ok (left, right) /\
    ((left = string /\ right = [] /\ forall a b, string <> a ++ delimiter ++ b) \/
     string = left ++ delimiter ++ right \/
     (left = [] /\ right = string /\ exists a b, string = a ++ delimiter ++ b)).
Proof.
  intros D.
  pose proof (split_Ok string delimiter D) as S.
  remember (split_loop (length string) string delimiter) as chunks eqn:C.
  destruct (split_join _ _ _ S) as [J N].
  destruct chunks as [|p [|q [|r rest]]]; [congruence | | |].
  - exists string, []. split; [exact (halved_one E _ _ _ S)|].
    left. split; [reflexivity|]. split; [reflexivity|].
    intros a b O. destruct string as [|x s].
    + exact (nil_no_occurrence delimiter a b D O).
    + pose proof (split_loop_occurs delimiter (length s) (x :: s) a b O) as L.
      cbn [length] in C. rewrite <- C in L. cbn in L. lia.
  - exists p, q. split; [exact (halved_two E _ _ _ _ S)|].
    right; left. rewrite <- J. reflexivity.
  - set (chunks := p :: q :: r :: rest) in *.
    assert (L3 : 3 <= length chunks) by (cbn; lia).
    pose proof (halved_many E _ _ _ S L3) as H. cbn zeta in H.
    pose proof (stop_index_first E string delimiter chunks J N) as SI.
    cbn zeta in SI. destruct SI as [B _].
    set (i := stop_index E string delimiter chunks) in *.
    destruct (Nat.eq_dec i 0) as [Z0|NZ].
    + exists [], string. rewrite Z0 in H. cbn [firstn skipn join] in H.
      rewrite J in H. split; [exact H|].
      right; right. split; [reflexivity|]. split; [reflexivity|].
      exists p, (join delimiter (q :: r :: rest)). rewrite <- J. reflexivity.
    + exists (join delimiter (firstn i chunks)), (join delimiter (skipn i chunks)).
      split; [exact H|]. right; left.
      rewrite join_firstn_skipn by lia. symmetry; exact J.
Qed.

(** X1.  For a non-empty delimiter, [halved_by_delimiter] returns the
    string with an empty right half exactly when the delimiter does not
    occur in the string: the pair that tells the caller no split is
    possible is never returned for a string that could be split. *)
Theorem halved_no_split_iff (string delimiter : str) :
  delimiter <> [] ->
  (halved_by_delimiter E string delimiter = Ok (string, []) <->
   forall a b, string <> a ++ delimiter ++ b).
Proof.
  intros D. split; [|apply halved_absent; exact D].
  intros H.
  destruct (halved_shape string delimiter D) as [left [right [Hh C]]].
  rewrite H in Hh. injection Hh as <- <-.
  destruct C as [[_ [_ A]]|[C|[C [_ [a [b O]]]]]]; [exact A | |].
  - exfalso. exact (app_longer string delimiter [] D C).
  - exfalso. rewrite C in O. exact (nil_no_occurrence delimiter a b D O).
Qed.

(** X2.  For a non-empty delimiter the two halves are a prefix and a suffix
    of the string, and what lies between them is nothing or one occurrence
    of the delimiter: no character is added, moved or dropped beyond that
    one delimiter. *)
Theorem halved_prefix_suffix (string delimiter : str) :
  delimiter <> [] ->
  exists left right mid,
    halved_by_delimiter E string delimiter = Ok (left, right) /\
    (mid = [] \/ mid = delimiter) /\
    string = left ++ mid ++ right.
Proof.
  intros D.
  destruct (halved_shape string delimiter D) as [left [right [Hh C]]].
  destruct C as [[-> [-> _]]|[C|[-> [-> _]]]].
  - exists string, [], []. split; [exact Hh|].
    split; [left; reflexivity | rewrite !app_nil_r; reflexivity].
  - exists left, right, delimiter. split; [exact Hh|].
    split; [right; reflexivity | exact C].
  - exists [], string, []. split; [exact Hh|].
    split; [left; reflexivity | reflexivity].
Qed.

(** X3.  With three parts or more, the scan stops at the very first part,
    leaving an empty left half, exactly when that part alone has no token
    or at least [2 * (total_tokens // 2)] tokens; otherwise the left half
    has at least one token and fewer than [2 * (total_tokens // 2)]. *)
Theorem halved_left_tokens (string delimiter : str) (chunks : list str) :
  split string delimiter = Ok chunks ->
  3 <= length chunks ->
  let halfway := (num_tokens E string GPT_MODEL / 2)%Z in
  let first_tokens := num_tokens E (hd [] chunks) GPT_MODEL in
  let i := stop_index E string delimiter chunks in
  let left := join delimiter (firstn i chunks) in
  halved_by_delimiter E string delimiter =
    Ok (left, join delimiter (skipn i chunks)) /\
  (i = 0 <-> (first_tokens = 0 \/ 2 * halfway <= first_tokens)%Z) /\
  (i <> 0 -> (0 < num_tokens E left GPT_MODEL < 2 * halfway)%Z).
Proof.
  intros S L3 halfway first_tokens i left.
  destruct (split_join _ _ _ S) as [J N].
  pose proof (stop_index_first E string delimiter chunks J N) as SI.
  cbn zeta in SI. fold halfway in SI. fold i in SI. destruct SI as [B [G F]].
  assert (D0 : scan_diff E chunks delimiter halfway 0 =
               Z.abs (halfway - first_tokens)).
  { unfold scan_diff, first_tokens. destruct chunks as [|c [|c' cs]]; reflexivity. }
  pose proof (num_tokens_nonneg E (hd [] chunks) GPT_MODEL) as P0.
  fold first_tokens in P0.
  split; [exact (halved_many E _ _ _ S L3)|]. split; [split|].
  - intros Z0. rewrite Z0 in G. unfold scan_best in G. cbn [Nat.eqb] in G.
    rewrite D0 in G. lia.
  - intros T. destruct (Nat.eq_dec i 0) as [|NZ]; [assumption|].
    specialize (F 0 ltac:(lia)). unfold scan_best in F. cbn [Nat.eqb] in F.
    rewrite D0 in F. lia.
  - intros NZ. specialize (F (Nat.pred i) ltac:(lia)) as Fi.
    pose proof (scan_best_le E chunks delimiter halfway (Nat.pred i)
                  ltac:(intros j Hj; apply F; lia)) as Bi.
    unfold scan_diff in Fi.
    replace (Nat.pred i + 1) with i in Fi by lia. fold left in Fi.
    pose proof (num_tokens_nonneg E left GPT_MODEL). lia.
Qed.

End HalvedExtras.

Lemma halved_no_split_iff_witness :
  halved_by_delimiter char_model (lit "abc") NEWLINE = Ok (lit "abc", []) <->
  forall a b, lit "abc" <> a ++ NEWLINE ++ b.
Proof.
  apply (halved_no_split_iff char_model (lit "abc") NEWLINE). discriminate.
Defined.

Lemma halved_prefix_suffix_witness :
  exists left right mid,
    halved_by_delimiter char_model (lit "a. b. c") SENTENCE = Ok (left, right) /\
    (mid = [] \/ mid = SENTENCE) /\
    lit "a. b. c" = left ++ mid ++ right.
Proof.
  apply (halved_prefix_suffix char_model (lit "a. b. c") SENTENCE). discriminate.
Defined.

Lemma halved_left_tokens_witness :
  (0 < num_tokens char_model (lit "a" ++ [LF] ++ lit "b") GPT_MODEL < 2 * (7 / 2))%Z.
Proof.
  pose proof (halved_left_tokens char_model
                (lit "a" ++ [LF] ++ lit "b" ++ [LF] ++ lit "c" ++ [LF] ++ lit "d")
                NEWLINE [lit "a"; lit "b"; lit "c"; lit "d"] eq_refl
                ltac:(cbn; lia)) as H.
  cbn zeta in H. destruct H as [_ [_ H]].
  exact (H ltac:(vm_compute; discriminate)).
Defined.

(** ** [split_strings_from_subsection] *)

Section ChunkerExtras.

Variable E : str -> Encoding.

Lemma chunking_count_depth (fuel : nat) (titles : list str) (text : str)
    (max_tokens : Z) (model : str) (max_recursion : Z) (t : chunking) :
  chunking_fuel E fuel (titles, text) max_tokens model max_recursion = Ok t ->
  (0 <= max_recursion)%Z ->
  (Z.of_nat (length (chunks_of t)) <= 2 ^ max_recursion)%Z.
Proof.
  revert text max_recursion t.
  induction fuel as [|fuel IH]; intros text max_recursion t; [discriminate|].
  cbn [chunking_fuel]. intros H P.
  assert (One : (1 <= 2 ^ max_recursion)%Z)
    by (pose proof (Z.pow_pos_nonneg 2 max_recursion ltac:(lia) P); lia).
  destruct (_ <=? max_tokens)%Z; [injection H as <-; exact One|].
  destruct (Z.eqb_spec max_recursion 0) as [|NZ]; [injection H as <-; exact One|].
  apply try_delimiters_chunking_inv in H.
  destruct H as [->|[d [left [right [l [r [_ [_ [_ [_ [Hl [Hr ->]]]]]]]]]]]];
    [exact One|].
  cbn [chunks_of]. rewrite length_app, Nat2Z.inj_add.
  specialize (IH _ _ _ Hl ltac:(lia)) as Il.
  specialize (IH _ _ _ Hr ltac:(lia)) as Ir.
  replace max_recursion with (Z.succ (max_recursion - 1)) at 1 by lia.
  rewrite Z.pow_succ_r by lia. lia.
Qed.

Lemma chunking_count_length (fuel : nat) (titles : list str) (text : str)
    (max_tokens : Z) (model : str) (max_recursion : Z) (t : chunking) :
  chunking_fuel E fuel (titles, text) max_tokens model max_recursion = Ok t ->
  length (chunks_of t) <= Nat.max 1 (length text).
Proof.
  revert text max_recursion t.
  induction fuel as [|fuel IH]; intros text max_recursion t; [discriminate|].
  cbn [chunking_fuel]. intros H.
  destruct (_ <=? max_tokens)%Z; [injection H as <-; cbn [chunks_of length]; lia|].
  destruct (max_recursion =? 0)%Z; [injection H as <-; cbn [chunks_of length]; lia|].
  apply try_delimiters_chunking_inv in H.
  destruct H as [->|[d [left [right [l [r [_ [Hh [Nl [Nr [Hl [Hr ->]]]]]]]]]]]];
    [cbn [chunks_of length]; lia|].
  cbn [chunks_of]. rewrite length_app.
  specialize (IH _ _ _ Hl) as Il. specialize (IH _ _ _ Hr) as Ir.
  destruct (halved_concat E _ _ _ _ Hh Nl Nr) as [D ->].
  rewrite !length_app.
  destruct left; [congruence|]. destruct right; [congruence|].
  destruct d; [congruence|]. cbn [length] in *. lia.
Qed.

(** X7.  With [max_recursion >= 0] the function returns at most
    [2 ** max_recursion] strings; with [max_recursion = 0], exactly one. *)
Theorem split_strings_count_depth (subsection : list str * str)
    (max_tokens : Z) (model : str) (max_recursion : Z) (strings : list str) :
  split_strings_from_subsection E subsection max_tokens model max_recursion =
    Ok strings ->
  (0 <= max_recursion)%Z ->
  (1 <= Z.of_nat (length strings) <= 2 ^ max_recursion)%Z.
Proof.
  intros H P. destruct subsection as [titles text].
  destruct (split_strings_total E (titles, text) max_tokens model max_recursion)
    as [t [Ht Hs]].
  rewrite Hs in H. injection H as <-.
  split.
  - pose proof (chunks_of_nonempty t). destruct (chunks_of t); [congruence | cbn; lia].
  - exact (chunking_count_depth _ _ _ _ _ _ _ Ht P).
Qed.

(** X8.  Whatever [max_recursion] is, negative included, the function
    returns at most as many strings as the text has characters (one for an
    empty text): every split consumes a delimiter between two non-empty
    halves. *)
Theorem split_strings_count_length (titles : list str) (text : str)
    (max_tokens : Z) (model : str) (max_recursion : Z) (strings : list str) :
  split_strings_from_subsection E (titles, text) max_tokens model max_recursion =
    Ok strings ->
  length strings <= Nat.max 1 (length text).
Proof.
  intros H.
  destruct (split_strings_total E (titles, text) max_tokens model max_recursion)
    as [t [Ht Hs]].
  rewrite Hs in H. injection H as <-.
  exact (chunking_count_length _ _ _ _ _ _ _ Ht).
Qed.

Lemma paragraph_occurs_newline (text a b : str) :
  text = a ++ PARAGRAPH ++ b -> text = a ++ NEWLINE ++ (NEWLINE ++ b).
Proof. intros ->. reflexivity. Qed.

(** X9.  A text with no newline and no [". "] that does not fit is not
    split: whatever [max_recursion] is, the function returns the one string
    [truncated_string] makes of the titles and the text. *)
Theorem split_strings_no_delimiter (titles : list str) (text : str)
    (max_tokens : Z) (model : str) (max_recursion : Z) :
  (forall a b, text <> a ++ NEWLINE ++ b) ->
  (forall a b, text <> a ++ SENTENCE ++ b) ->
  (max_tokens < num_tokens E (join PARAGRAPH (titles ++ [text])) GPT_MODEL)%Z ->
  split_strings_from_subsection E (titles, text) max_tokens model max_recursion =
  Ok [truncated_string E (join PARAGRAPH (titles ++ [text])) model max_tokens].
Proof.
  intros Nn Ns Gt. unfold split_strings_from_subsection.
  cbn [snd split_strings_fuel].
  destruct (Z.leb_spec (num_tokens E (join PARAGRAPH (titles ++ [text])) GPT_MODEL)
              max_tokens) as [|_]; [lia|].
  destruct (max_recursion =? 0)%Z; [reflexivity|].
  cbn [try_delimiters].
  rewrite (halved_absent E text PARAGRAPH) by
    (try discriminate; intros a b H; exact (Nn _ _ (paragraph_occurs_newline _ _ _ H))).
  cbn [bind fst snd]. rewrite eqb_refl, orb_true_r.
  rewrite (halved_absent E text NEWLINE) by (try discriminate; exact Nn).
  cbn [bind fst snd]. rewrite eqb_refl, orb_true_r.
  rewrite (halved_absent E text SENTENCE) by (try discriminate; exact Ns).
  cbn [bind fst snd]. rewrite eqb_refl, orb_true_r.
  reflexivity.
Qed.

Lemma try_delimiters_chunking_model (text : str) (rec1 rec2 : str -> res chunking)
    (fallback1 fallback2 : chunking) (delimiters : list str) (t : chunking) :
  (forall half u, rec1 half = Ok u -> no_truncation u -> rec2 half = Ok u) ->
  ~ no_truncation fallback1 ->
  try_delimiters_chunking E text rec1 fallback1 delimiters = Ok t ->
  no_truncation t ->
  try_delimiters_chunking E text rec2 fallback2 delimiters = Ok t.
Proof.
  intros M Fb. induction delimiters as [|d ds IH]; cbn [try_delimiters_chunking].
  - intros [= <-] N. contradiction.
  - intros H N. apply bind_Ok_inv in H. destruct H as [[left right] [Hh H]].
    rewrite Hh. cbn [bind fst snd] in *.
    destruct (eqb left [] || eqb right []); [auto|].
    apply bind_Ok_inv in H. destruct H as [l [Hl H]].
    apply bind_Ok_inv in H. destruct H as [r [Hr H]].
    injection H as <-. destruct N as [N1 N2].
    rewrite (M _ _ Hl N1), (M _ _ Hr N2). reflexivity.
Qed.

Lemma chunking_fuel_model (fuel : nat) (titles : list str) (text : str)
    (max_tokens : Z) (model model' : str) (max_recursion : Z) (t : chunking) :
  chunking_fuel E fuel (titles, text) max_tokens model max_recursion = Ok t ->
  no_truncation t ->
  chunking_fuel E fuel (titles, text) max_tokens model' max_recursion = Ok t.
Proof.
  revert text max_recursion t.
  induction fuel as [|fuel IH]; intros text max_recursion t; [discriminate|].
  cbn [chunking_fuel].
  destruct (_ <=? max_tokens)%Z; [auto|].
  destruct (max_recursion =? 0)%Z; [intros [= <-] []|].
  apply try_delimiters_chunking_model; [|cbn; tauto].
  intros half u. apply IH.
Qed.

(** X10.  The [model] argument only selects the tokenizer that truncates;
    tokens are counted with the default model.  So a run that truncated
    nothing returns the same strings for every [model]. *)
Theorem split_strings_model_unused (titles : list str) (text : str)
    (max_tokens : Z) (model model' : str) (max_recursion : Z) (t : chunking) :
  chunking_of E (titles, text) max_tokens model max_recursion = Ok t ->
  no_truncation t ->
  split_strings_from_subsection E (titles, text) max_tokens model max_recursion =
    Ok (chunks_of t) /\
  split_strings_from_subsection E (titles, text) max_tokens model' max_recursion =
    Ok (chunks_of t).
Proof.
  intros Ht N. unfold split_strings_from_subsection, chunking_of in *.
  rewrite !split_strings_chunks, Ht.
  rewrite (chunking_fuel_model _ _ _ _ _ model' _ _ Ht N). split; reflexivity.
Qed.

End ChunkerExtras.

Lemma split_strings_count_depth_witness :
  (1 <= Z.of_nat (length [lit "T" ++ [LF; LF] ++ lit "aaaa"; lit "T" ++ [LF; LF] ++ lit "bbbb"])
   <= 2 ^ 1)%Z.
Proof.
  apply (split_strings_count_depth char_model ([lit "T"], lit "aaaa. bbbb") 7 GPT_MODEL 1).
  - reflexivity.
  - lia.
Defined.

Lemma split_strings_count_length_witness :
  length [lit "T" ++ [LF; LF] ++ lit "aaaa"; lit "T" ++ [LF; LF] ++ lit "bbbb"] <=
  Nat.max 1 (length (lit "aaaa. bbbb")).
Proof.
  apply (split_strings_count_length char_model [lit "T"] (lit "aaaa. bbbb") 7 GPT_MODEL (-1)).
  reflexivity.
Defined.

Lemma split_strings_no_delimiter_witness :
  split_strings_from_subsection char_model ([lit "T"], lit "aaaaaaaa") 5 GPT_MODEL 5 =
  Ok [truncated_string char_model (join PARAGRAPH ([lit "T"] ++ [lit "aaaaaaaa"]))
        GPT_MODEL 5].
Proof.
  apply (split_strings_no_delimiter char_model [lit "T"] (lit "aaaaaaaa") 5 GPT_MODEL 5).
  - intros a b H.
    assert (I : In LF (lit "aaaaaaaa")) by (rewrite H; apply in_or_app; right; left; reflexivity).
    cbn in I. intuition discriminate.
  - intros a b H.
    assert (I : In 46%N (lit "aaaaaaaa")) by (rewrite H; apply in_or_app; right; left; reflexivity).
    cbn in I. intuition discriminate.
  - vm_compute. reflexivity.
Defined.

Lemma split_strings_model_unused_witness :
  split_strings_from_subsection char_model ([lit "T"], lit "aaaa. bbbb") 7
    (lit "gpt-4") 5 =
  Ok [lit "T" ++ [LF; LF] ++ lit "aaaa"; lit "T" ++ [LF; LF] ++ lit "bbbb"].
Proof.
  exact (proj2 (split_strings_model_unused char_model [lit "T"] (lit "aaaa. bbbb") 7
                  GPT_MODEL (lit "gpt-4") 5
                  (Halved SENTENCE (Fits (lit "T" ++ [LF; LF] ++ lit "aaaa"))
                                   (Fits (lit "T" ++ [LF; LF] ++ lit "bbbb")))
                  eq_refl (conj I I))).
Defined.

(** ** [split_into_sections] *)

Section SectionExtras.

Variable U : Ucd.

(** X11.  Lines before the first accepted marker are dropped: an input in
    which no line is the marker [1] gives no section at all. *)
Theorem sections_without_marker (lines : list str) :
  Forall (fun line => is_marker U sections_init line = Ok false) lines ->
  split_into_sections U lines = Ok [].
Proof.
  intros F. unfold split_into_sections.
  assert (L : sections_loop U sections_init lines = Ok sections_init).
  { induction F as [|line lines M _ IH]; cbn [sections_loop]; [reflexivity|].
    unfold sections_step. rewrite M. cbn. exact IH. }
  rewrite L. reflexivity.
Qed.

Lemma subsequence_prefix (a b l : list str) :
  subsequence (a ++ b) l -> subsequence a l.
Proof.
  revert l; induction a as [|x a IH]; intros l H.
  - clear H. induction l; constructor; assumption.
  - cbn in H. remember (x :: a ++ b) as s eqn:Es.
    induction H as [|y s' l' H IHs|y s' l' H _]; [discriminate | |].
    + apply subsequence_skip. apply IHs. exact Es.
    + injection Es as -> ->. apply subsequence_keep. apply IH. exact H.
Qed.

(** An iteration keeps the lines held so far and adds at most the line it
    read, at the end. *)
Lemma held_lines_step (st st' : sections_state) (line : str) :
  sections_inv st ->
  sections_step U st line = Ok st' ->
  held_lines st' = held_lines st \/ held_lines st' = held_lines st ++ [line].
Proof.
  intros [_ [_ [_ [A _]]]] H. apply sections_step_cases in H.
  destruct H as [[_ ->]|[[_ [Act ->]]|[_ [_ ->]]]].
  - left. unfold held_lines, open_section; cbn.
    destruct (tmp st) as [[|l lines]|]; rewrite ?app_nil_r; try reflexivity.
    rewrite map_app, concat_app. cbn. rewrite !app_nil_r. reflexivity.
  - right. unfold held_lines, append_line; cbn.
    specialize (A Act). destruct (tmp st) as [lines|]; [|congruence].
    cbn. rewrite app_assoc. reflexivity.
  - left. reflexivity.
Qed.

Lemma held_lines_loop (lines : list str) (st st' : sections_state) :
  sections_inv st ->
  sections_loop U st lines = Ok st' ->
  exists added, held_lines st' = held_lines st ++ added /\ subsequence added lines.
Proof.
  revert st; induction lines as [|line lines IH]; intros st I; cbn [sections_loop].
  - intros [= <-]. exists []. rewrite app_nil_r. split; [reflexivity | constructor].
  - intros H. apply bind_Ok_inv in H. destruct H as [st1 [S H]].
    destruct (IH _ (sections_inv_step U _ _ _ I S) H) as [added [Eq Sub]].
    destruct (held_lines_step _ _ _ I S) as [K|K]; rewrite K in Eq.
    + exists added. split; [exact Eq | apply subsequence_skip; exact Sub].
    + exists (line :: added). split; [rewrite Eq, <- app_assoc; reflexivity|].
      apply subsequence_keep. exact Sub.
Qed.

(** X12.  The parser invents, repeats and reorders nothing: the lines of
    the sections it returns, read one section after the other, are lines of
    the input in the order of the input. *)
Theorem sections_are_input_lines (lines : list str) (sections : list (str * list str)) :
  split_into_sections U lines = Ok sections ->
  subsequence (concat (map snd sections)) lines.
Proof.
  unfold split_into_sections. intros H.
  apply bind_Ok_inv in H. destruct H as [st [L H]]. injection H as <-.
  destruct (held_lines_loop lines _ _ sections_inv_init L) as [added [Eq Sub]].
  cbn in Eq. rewrite <- Eq in Sub. unfold held_lines in Sub.
  exact (subsequence_prefix _ _ _ Sub).
Qed.

(** [int] skips no more than [strip] does: what [strip] keeps, [int] has to
    read. *)
Lemma lstrip_incl (s : str) (c : char) : In c (lstrip U s) -> In c s.
Proof.
  induction s as [|x s IH]; cbn [lstrip]; [auto|].
  destruct (isspace U x); [intros I; right; exact (IH I) | auto].
Qed.

Lemma lstrip_in_int_lstrip (s : str) (c : char) :
  In c (lstrip U s) -> In c (int_lstrip U s).
Proof.
  induction s as [|x s IH]; cbn [lstrip int_lstrip]; [auto|].
  unfold int_isspace. destruct (isspace U x); cbn [andb].
  - intros I. destruct (negb _); [exact (IH I) | right; exact (lstrip_incl _ _ I)].
  - auto.
Qed.

Lemma lstrip_suffix (s : str) : exists q, s = q ++ lstrip U s.
Proof.
  induction s as [|x s [q IH]]; cbn [lstrip]; [exists []; reflexivity|].
  destruct (isspace U x); [|exists []; reflexivity].
  exists (x :: q). cbn. f_equal. exact IH.
Qed.

Lemma int_lstrip_lstrip (s : str) : exists p, int_lstrip U s = p ++ lstrip U s.
Proof.
  induction s as [|x s [p IH]]; cbn [lstrip int_lstrip]; [exists []; reflexivity|].
  unfold int_isspace. destruct (isspace U x); cbn [andb]; [|exists []; reflexivity].
  destruct (negb _); [exists p; exact IH|].
  destruct (lstrip_suffix s) as [q Hq]. exists (x :: q). cbn. f_equal. exact Hq.
Qed.

Lemma int_lstrip_app (t u : str) (c : char) :
  In c (int_lstrip U t) -> In c (int_lstrip U (t ++ u)).
Proof.
  induction t as [|x t IH]; cbn [int_lstrip app]; [intros []|].
  destruct (int_isspace U x); [exact IH|].
  intros I. change (In c ((x :: t) ++ u)). apply in_or_app. left. exact I.
Qed.

Lemma strip_in_int_strip (s : str) (c : char) :
  In c (strip U s) -> In c (int_strip U s).
Proof.
  unfold strip, rstrip, int_strip. intros I.
  rewrite <- in_rev in I. apply lstrip_in_int_lstrip in I.
  rewrite <- in_rev. destruct (int_lstrip_lstrip s) as [p ->].
  rewrite rev_app_distr. apply int_lstrip_app. exact I.
Qed.

Lemma int_digits_not_decimal (s : str) (acc : Z) (c : char) :
  In c s -> decimal U c = None -> int_digits U acc s = Raise ValueError.
Proof.
  revert acc; induction s as [|x s IH]; intros acc I D; [destruct I|].
  cbn [int_digits]. destruct I as [->|I]; [rewrite D; reflexivity|].
  destruct (decimal U x); [exact (IH _ I D) | reflexivity].
Qed.

(** X13.  A line whose stripped form is made of numeric characters one of
    which is not a decimal digit makes [int] raise: the whole call raises
    [ValueError], whatever the lines before and after it are, and returns
    no section. *)
Theorem sections_numeric_not_decimal (pre post : list str) (line : str)
    (st : sections_state) (c : char) :
  sections_loop U sections_init pre = Ok st ->
  isnumeric U (strip U line) = true ->
  In c (strip U line) -> decimal U c = None ->
  split_into_sections U (pre ++ line :: post) = Raise ValueError.
Proof.
  intros Hpre Num I D. unfold split_into_sections.
  rewrite sections_loop_app, Hpre. cbn [bind sections_loop].
  unfold sections_step, is_marker. rewrite Num.
  apply strip_in_int_strip in I.
  unfold int. destruct (int_strip U line) as [|x s] eqn:S; [destruct I|].
  destruct (_ <? _)%Z; [reflexivity|].
  rewrite (int_digits_not_decimal (x :: s) 0 c I D). reflexivity.
Qed.

End SectionExtras.

Lemma sections_without_marker_witness :
  split_into_sections ascii_ucd [line "2"; line "hello"; line "3"] = Ok [].
Proof.
  apply (sections_without_marker ascii_ucd [line "2"; line "hello"; line "3"]).
  repeat constructor.
Defined.

Lemma sections_are_input_lines_witness :
  subsequence (concat (map snd [(lit "1", [line "a"; line "7"])]))
    [line "0"; line "1"; line "a"; line "7"; line "2"; line "b"].
Proof.
  apply (sections_are_input_lines ascii_ucd
           [line "0"; line "1"; line "a"; line "7"; line "2"; line "b"]
           [(lit "1", [line "a"; line "7"])]).
  reflexivity.
Defined.

Lemma sections_numeric_not_decimal_witness :
  split_into_sections latin1_ucd ([line "1"; line "a"] ++ [178%N; LF] :: [line "2"]) =
  Raise ValueError.
Proof.
  apply (sections_numeric_not_decimal latin1_ucd [line "1"; line "a"] [line "2"]
           [178%N; LF]
           {| res_ := []; tmp := Some [line "a"]; active := true; match_tok := 1 |}
           178%N).
  - reflexivity.
  - reflexivity.
  - left. reflexivity.
  - reflexivity.
Defined.

(** ** [parse_and_join_ans] and [split_into_qa_pairs] *)

(** X14.  Joining the answer lines of two runs of lines put end to end is
    joining each run and concatenating the two strings: whether a line is
    dropped never depends on its neighbours. *)
Theorem parse_and_join_ans_app (ans1 ans2 : list str) :
  parse_and_join_ans (ans1 ++ ans2) =
  parse_and_join_ans ans1 ++ parse_and_join_ans ans2.
Proof.
  unfold parse_and_join_ans. rewrite !join_empty_sep, filter_app, concat_app.
  reflexivity.
Qed.

(** X15.  The list bound to [questions] is stored in a result and stays
    bound to the variable, but no later [append] reaches a list already
    stored: the value [split_into_qa_pairs] returns is the one obtained by
    copying [questions] whenever it is stored. *)
Theorem qa_pairs_sharing_harmless (sections : list (str * list str)) :
  split_into_qa_pairs sections = split_into_qa_pairs_pure sections.
Proof. exact (split_into_qa_pairs_values sections). Qed.

(** The loops only ever append to [tmp] and to [res]. *)
Lemma qa_line_pure_grows (line : str) (qa : list str * list str)
    (tmp : list (list str * str)) :
  exists added,
    snd (qa_line_pure (qa, tmp) line) = tmp ++ added /\
    forall tmp', qa_line_pure (qa, tmp') line =
                 (fst (qa_line_pure (qa, tmp) line), tmp' ++ added).
Proof.
  destruct qa as [questions ans]. unfold qa_line_pure.
  destruct (startswith line (lit "<Q>")).
  - destruct (0 <? length ans)%nat.
    + exists [(questions, parse_and_join_ans ans)]. split; reflexivity.
    + exists []. cbn. rewrite app_nil_r. split; [reflexivity|].
      intros tmp'. rewrite app_nil_r. reflexivity.
  - exists []. cbn. rewrite app_nil_r. split; [reflexivity|].
    intros tmp'. rewrite app_nil_r. reflexivity.
Qed.

Lemma qa_lines_pure_grows (text : list str) (qa : list str * list str)
    (tmp : list (list str * str)) :
  exists added,
    fold_left qa_line_pure text (qa, tmp) =
    (fst (fold_left qa_line_pure text (qa, [])), tmp ++ added) /\
    snd (fold_left qa_line_pure text (qa, [])) = added.
Proof.
  revert qa tmp; induction text as [|line text IH]; intros qa tmp.
  - exists []. cbn. rewrite app_nil_r. split; reflexivity.
  - cbn [fold_left].
    destruct (qa_line_pure_grows line qa []) as [a1 [S1 G1]].
    destruct (qa_line_pure (qa, []) line) as [qa1 t1] eqn:L.
    cbn [fst snd app] in S1, G1. subst t1.
    rewrite (G1 tmp). cbn [fst].
    destruct (IH qa1 (tmp ++ a1)) as [a2 [F2 S2]].
    destruct (IH qa1 a1) as [a3 [F3 S3]].
    exists (a1 ++ a2). rewrite F2, F3. cbn [fst snd].
    rewrite S3 in S2. subst a3. rewrite app_assoc. split; reflexivity.
Qed.

Lemma qa_sections_pure_grows (sections : list (str * list str))
    (qa : list str * list str) (res : list (str * list (list str * str))) :
  fold_left qa_section_pure sections (qa, res) =
  (fst (fold_left qa_section_pure sections (qa, [])),
   res ++ snd (fold_left qa_section_pure sections (qa, []))).
Proof.
  revert qa res; induction sections as [|[section text] sections IH]; intros qa res.
  - cbn. rewrite app_nil_r. reflexivity.
  - cbn [fold_left]. unfold qa_section_pure at 2 4 6.
    destruct (fold_left qa_line_pure text (qa, [])) as [[questions ans] tmp].
    rewrite (IH _ (res ++ _)), (IH _ ([] ++ _)). cbn [fst snd app].
    rewrite <- app_assoc. reflexivity.
Qed.

Lemma qa_sections_pure_names (sections : list (str * list str))
    (qa : list str * list str) :
  map fst (snd (fold_left qa_section_pure sections (qa, []))) = map fst sections.
Proof.
  revert qa; induction sections as [|[section text] sections IH]; intros qa;
    [reflexivity|].
  cbn [fold_left]. unfold qa_section_pure at 2.
  destruct (fold_left qa_line_pure text (qa, [])) as [[questions ans] tmp].
  rewrite qa_sections_pure_grows. cbn [snd app map fst]. rewrite IH. reflexivity.
Qed.

(** X16.  The result has one entry for each section given, in the same
    order and under the same name, even for a section that yields no
    pair. *)
Theorem qa_pairs_section_names (sections : list (str * list str)) :
  map fst (split_into_qa_pairs sections) = map fst sections.
Proof.
  rewrite split_into_qa_pairs_values. unfold split_into_qa_pairs_pure.
  apply qa_sections_pure_names.
Qed.

Lemma qa_answer_line (line : str) (qa : list str * list str)
    (tmp : list (list str * str)) :
  startswith line (lit "<Q>") = false ->
  qa_line_pure (qa, tmp) line = ((fst qa, snd qa ++ [line]), tmp).
Proof. intros H. destruct qa. unfold qa_line_pure. rewrite H. reflexivity. Qed.

Lemma qa_question_line_flush (line : str) (questions ans : list str)
    (tmp : list (list str * str)) :
  startswith line (lit "<Q>") = true -> ans <> [] ->
  qa_line_pure ((questions, ans), tmp) line =
  (([slice_from line 4], []), tmp ++ [(questions, parse_and_join_ans ans)]).
Proof.
  intros H N. unfold qa_line_pure. rewrite H.
  destruct ans; [congruence | reflexivity].
Qed.

(** X17.  When the text of a section ends with an answer line and the text
    of the next section starts with a question line, the last pair of the
    first section is returned once more, as the first pair of the second:
    [questions] and [ans] survive the end of a section. *)
Theorem qa_pair_repeated (pre post : list (str * list str))
    (name1 name2 : str) (text1 text2 : list str) (answer question : str) :
  startswith answer (lit "<Q>") = false ->
  startswith question (lit "<Q>") = true ->
  exists out_pre out_post pairs1 pairs2 pair,
    length out_pre = length pre /\
    split_into_qa_pairs
      (pre ++ (name1, text1 ++ [answer]) :: (name2, question :: text2) :: post) =
    out_pre ++ (name1, pairs1 ++ [pair]) :: (name2, pair :: pairs2) :: out_post.
Proof.
  intros Ha Hq. rewrite split_into_qa_pairs_values. unfold split_into_qa_pairs_pure.
  rewrite fold_left_app.
  destruct (fold_left qa_section_pure pre (([], []), [])) as [qa0 res0] eqn:P.
  assert (L0 : length res0 = length pre).
  { pose proof (qa_sections_pure_names pre ([], [])) as Nm. rewrite P in Nm.
    cbn [snd] in Nm. apply (f_equal (@length _)) in Nm.
    rewrite !length_map in Nm. exact Nm. }
  rewrite qa_sections_pure_grows. cbn [snd fold_left].
  (* the first section *)
  unfold qa_section_pure at 3. rewrite fold_left_app. cbn [fold_left].
  destruct (fold_left qa_line_pure text1 (qa0, [])) as [[questions ans] tmp1].
  rewrite (qa_answer_line answer _ _ Ha). cbn [fst snd].
  assert (N : ans ++ [answer] <> [])
    by (intros X; apply app_eq_nil in X; destruct X; discriminate).
  replace (0 <? length (ans ++ [answer]))%nat with true
    by (symmetry; apply Nat.ltb_lt; rewrite length_app; cbn; lia).
  set (pair := (questions, parse_and_join_ans (ans ++ [answer]))).
  (* the second section *)
  unfold qa_section_pure at 2. cbn [fold_left].
  rewrite (qa_question_line_flush question _ _ _ Hq N). fold pair.
  destruct (qa_lines_pure_grows text2 ([slice_from question 4], []) ([] ++ [pair]))
    as [added [F _]].
  rewrite F. clear F.
  destruct (fst (fold_left qa_line_pure text2 ([slice_from question 4], [], [])))
    as [questions2 ans2].
  rewrite qa_sections_pure_grows. cbn [snd app].
  exists res0, (snd (fold_left qa_section_pure post ((questions2, ans2), []))), tmp1,
    (added ++ if (0 <? length ans2)%nat
              then [(questions2, parse_and_join_ans ans2)] else []),
    pair.
  split; [exact L0|]. f_equal. f_equal. f_equal. f_equal.
  destruct (0 <? length ans2)%nat; [reflexivity | rewrite app_nil_r; reflexivity].
Qed.

Lemma qa_pair_repeated_witness :
  exists out_pre out_post pairs1 pairs2 pair,
    length out_pre = length (@nil (str * list str)) /\
    split_into_qa_pairs
      ([] ++ (lit "1", [line "<Q> a"] ++ [line "x"]) ::
             (lit "2", line "<Q> b" :: [line "y"]) :: []) =
    out_pre ++ (lit "1", pairs1 ++ [pair]) :: (lit "2", pair :: pairs2) :: out_post.
Proof.
  apply (qa_pair_repeated [] [] (lit "1") (lit "2") [line "<Q> a"] [line "y"]
           (line "x") (line "<Q> b")); reflexivity.
Defined.

(** ** The driver script *)

Lemma documents_from_ids (i : nat) (qa_strings : list str) :
  map document_id (documents_from i qa_strings) =
  map (fun k => collection_name ++ lit "-" ++ str_of_int (Z.of_nat k))
      (seq i (length qa_strings)).
Proof.
  revert i; induction qa_strings as [|chunk rest IH]; intros i; [reflexivity|].
  cbn [documents_from map length seq document_id]. f_equal. apply IH.
Qed.

Lemma documents_from_content (i : nat) (qa_strings : list str) :
  map content (documents_from i qa_strings) = qa_strings.
Proof.
  revert i; induction qa_strings as [|chunk rest IH]; intros i; [reflexivity|].
  cbn [documents_from map content]. f_equal. apply IH.
Qed.

(** X20.  The documents [setup.py] builds carry the strings of [qa_strings]
    in order, and no two of them have the same [document_id]. *)
Theorem documents_ids_distinct (qa_strings : list str) :
  map content (documents_of qa_strings) = qa_strings /\
  NoDup (map document_id (documents_of qa_strings)).
Proof.
  unfold documents_of. split; [apply documents_from_content|].
  rewrite documents_from_ids.
  assert (Inj : forall k k' : nat,
            collection_name ++ lit "-" ++ str_of_int (Z.of_nat k) =
            collection_name ++ lit "-" ++ str_of_int (Z.of_nat k') -> k = k').
  { intros k k' H. apply app_inv_head in H. apply app_inv_head in H.
    apply str_of_int_inj in H. lia. }
  generalize (seq_NoDup (length qa_strings) 0).
  generalize (seq 0 (length qa_strings)) as ks.
  induction 1 as [|k ks N _ IH]; cbn [map]; constructor; [|exact IH].
  intros I. apply in_map_iff in I. destruct I as [k' [Eq I]].
  apply Inj in Eq. subst. exact (N I).
Qed.

(** ** More on the two parsers *)

Lemma qa_question_lines (qs : list str) (questions : list str)
    (tmp : list (list str * str)) :
  Forall (fun q => startswith q (lit "<Q>") = true) qs ->
  fold_left qa_line_pure qs ((questions, []), tmp) =
  ((questions ++ map (fun q => slice_from q 4) qs, []), tmp).
Proof.
  intros F. revert questions.
  induction F as [|q qs Hq _ IH]; intros questions; cbn [fold_left map].
  - rewrite app_nil_r. reflexivity.
  - unfold qa_line_pure at 2. rewrite Hq. cbn [length Nat.ltb Nat.leb].
    rewrite IH, <- app_assoc. reflexivity.
Qed.

Lemma qa_answer_lines (answers : list str) (questions ans : list str)
    (tmp : list (list str * str)) :
  Forall (fun a => startswith a (lit "<Q>") = false) answers ->
  fold_left qa_line_pure answers ((questions, ans), tmp) =
  ((questions, ans ++ answers), tmp).
Proof.
  intros F. revert ans.
  induction F as [|a answers Ha _ IH]; intros ans; cbn [fold_left].
  - rewrite app_nil_r. reflexivity.
  - rewrite (qa_answer_line a _ _ Ha). cbn [fst snd].
    rewrite IH, <- app_assoc. reflexivity.
Qed.

(** X21.  A single section made of question lines followed by at least one
    answer line gives one pair: the questions without their first four
    characters, in order, and the answer lines joined by
    [parse_and_join_ans]. *)
Theorem qa_pairs_one_block (name : str) (qs answers : list str) :
  Forall (fun q => startswith q (lit "<Q>") = true) qs ->
  Forall (fun a => startswith a (lit "<Q>") = false) answers ->
  answers <> [] ->
  split_into_qa_pairs [(name, qs ++ answers)] =
  [(name, [(map (fun q => slice_from q 4) qs, parse_and_join_ans answers)])].
Proof.
  intros Fq Fa N. rewrite split_into_qa_pairs_values.
  unfold split_into_qa_pairs_pure. cbn [fold_left]. unfold qa_section_pure.
  rewrite fold_left_app, (qa_question_lines qs [] [] Fq).
  rewrite (qa_answer_lines answers _ [] [] Fa). cbn [app].
  destruct answers; [congruence | reflexivity].
Qed.

Lemma qa_pairs_one_block_witness :
  split_into_qa_pairs
    [(lit "7", [line "<Q> Who?"; line "<Q> Who is it?"] ++ [line "Me"; [LF]; line "again"])] =
  [(lit "7", [(map (fun q => slice_from q 4) [line "<Q> Who?"; line "<Q> Who is it?"],
               parse_and_join_ans [line "Me"; [LF]; line "again"])])].
Proof.
  apply (qa_pairs_one_block (lit "7") [line "<Q> Who?"; line "<Q> Who is it?"]
           [line "Me"; [LF]; line "again"]).
  - repeat constructor.
  - repeat constructor.
  - discriminate.
Defined.

Section SectionPrefix.

Variable U : Ucd.

Lemma sections_step_grows (st st' : sections_state) (line : str) :
  sections_step U st line = Ok st' -> exists more, res_ st' = res_ st ++ more.
Proof.
  intros H. apply sections_step_cases in H.
  destruct H as [[_ ->]|[[_ [_ ->]]|[_ [_ ->]]]].
  - unfold open_section; cbn. destruct (tmp st) as [[|l lines]|].
    + exists []. rewrite app_nil_r. reflexivity.
    + eexists. reflexivity.
    + exists []. rewrite app_nil_r. reflexivity.
  - exists []. cbn. rewrite app_nil_r. reflexivity.
  - exists []. rewrite app_nil_r. reflexivity.
Qed.

Lemma sections_loop_grows (lines : list str) (st st' : sections_state) :
  sections_loop U st lines = Ok st' -> exists more, res_ st' = res_ st ++ more.
Proof.
  revert st; induction lines as [|line lines IH]; intros st; cbn [sections_loop].
  - intros [= <-]. exists []. rewrite app_nil_r. reflexivity.
  - intros H. apply bind_Ok_inv in H. destruct H as [st1 [S H]].
    destruct (sections_step_grows _ _ _ S) as [m1 E1].
    destruct (IH _ H) as [m2 E2].
    exists (m1 ++ m2). rewrite E2, E1, app_assoc. reflexivity.
Qed.

(** X22.  Reading more lines never changes a section already returned: the
    sections returned for a prefix of the input are the first sections
    returned for the whole input. *)
Theorem sections_prefix_stable (lines more : list str)
    (sections sections' : list (str * list str)) :
  split_into_sections U lines = Ok sections ->
  split_into_sections U (lines ++ more) = Ok sections' ->
  exists added, sections' = sections ++ added.
Proof.
  unfold split_into_sections. intros H H'.
  apply bind_Ok_inv in H. destruct H as [st [L H]]. injection H as <-.
  apply bind_Ok_inv in H'. destruct H' as [st' [L' H']]. injection H' as <-.
  rewrite sections_loop_app, L in L'. cbn [bind] in L'.
  exact (sections_loop_grows _ _ _ L').
Qed.

End SectionPrefix.

Lemma sections_prefix_stable_witness :
  exists added,
    [(lit "1", [line "a"]); (lit "2", [line "b"])] = [(lit "1", [line "a"])] ++ added.
Proof.
  apply (sections_prefix_stable ascii_ucd
           [line "1"; line "a"; line "2"] [line "b"; line "3"; line "c"]).
  - reflexivity.
  - reflexivity.
Defined.

(** ** The functions with the tokenizer's exceptions *)

Section RaisingFacts.

Variable T : str -> option Tokenizer.

Lemma bind_outcome {A B : Type} (m : res A) (k : A -> res B) :
  (exists a, m = Ok a /\ bind m k = k a) \/ (exists e, m = Raise e /\ bind m k = Raise e).
Proof. destruct m as [a|e]; [left | right]; eauto. Qed.

Lemma slice_to_firstn {A : Type} (l : list A) (n : Z) :
  (0 <= n)%Z -> slice_to l n = firstn (Z.to_nat n) l.
Proof.
  intros P. unfold slice_to. destruct (Z.ltb_spec n 0); [lia | reflexivity].
Qed.

(** *** What is returned is what the functions over [accepted] compute *)

Lemma raising_num_tokens (text model : str) (n : Z) :
  Raising.num_tokens T text model = Ok n ->
  num_tokens (accepted T) text model = n.
Proof.
  unfold Raising.num_tokens, Raising.encoding, Raising.encode_text, num_tokens, accepted.
  destruct (T model) as [enc|]; [|discriminate]. cbn [bind encode].
  destruct (try_encode enc text); [|discriminate].
  cbn [bind]. intros [= <-]. reflexivity.
Qed.

Lemma raising_halfway_scan (chunks : list str) (delimiter : str) (halfway : Z)
    (todo : list str) (i : nat) (best : Z) (k : nat) :
  Raising.halfway_scan T chunks delimiter halfway todo i best = Ok k ->
  halfway_scan (accepted T) chunks delimiter halfway todo i best = k.
Proof.
  revert i best; induction todo as [|c todo IH]; intros i best;
    cbn [Raising.halfway_scan halfway_scan].
  - intros [= <-]. reflexivity.
  - intros H. apply bind_Ok_inv in H. destruct H as [n [Hn H]].
    apply raising_num_tokens in Hn. rewrite Hn. cbn zeta.
    destruct (_ >=? best)%Z.
    + injection H as <-. reflexivity.
    + apply IH. exact H.
Qed.

Lemma raising_halved (string delimiter : str) (halves : str * str) :
  Raising.halved_by_delimiter T string delimiter = Ok halves ->
  halved_by_delimiter (accepted T) string delimiter = Ok halves.
Proof.
  unfold Raising.halved_by_delimiter, halved_by_delimiter.
  destruct (split string delimiter) as [chunks|e]; [|discriminate]. cbn [bind].
  destruct chunks as [|a [|b [|c rest]]]; try (intros H; exact H).
  intros H. apply bind_Ok_inv in H. destruct H as [total [Ht H]].
  apply bind_Ok_inv in H. destruct H as [i [Hi H]].
  apply raising_num_tokens in Ht. apply raising_halfway_scan in Hi.
  unfold stop_index. cbn zeta. rewrite Ht, Hi. exact H.
Qed.

Lemma raising_truncated (string model : str) (max_tokens : Z) (chunk : str) :
  Raising.truncated_string T string model max_tokens = Ok chunk ->
  truncated_string (accepted T) string model max_tokens = chunk.
Proof.
  unfold Raising.truncated_string, Raising.encoding, Raising.encode_text,
    truncated_string, accepted.
  destruct (T model) as [enc|]; [|discriminate]. cbn [bind encode decode].
  destruct (try_encode enc string); [|discriminate].
  cbn [bind]. intros [= <-]. reflexivity.
Qed.

(** What the delimiter loop returns: what the fallback returns, or the two
    recursive results under the first delimiter that gave two non-empty
    halves. *)
Lemma raising_try_delimiters_inv (text : str) (recurse : str -> res (list str))
    (fallback : res (list str)) (delimiters : list str) (strings : list str) :
  Raising.try_delimiters T text recurse fallback delimiters = Ok strings ->
  fallback = Ok strings \/
  exists delimiter left right left_strings right_strings,
    In delimiter delimiters /\
    Raising.halved_by_delimiter T text delimiter = Ok (left, right) /\
    left <> [] /\ right <> [] /\
    recurse left = Ok left_strings /\ recurse right = Ok right_strings /\
    strings = left_strings ++ right_strings.
Proof.
  induction delimiters as [|d ds IH]; cbn [Raising.try_delimiters].
  - intros H. left; exact H.
  - intros H. apply bind_Ok_inv in H. destruct H as [[left right] [Hh H]].
    cbn [fst snd] in H.
    destruct (eqb left [] || eqb right []) eqn:Em.
    + destruct (IH H) as [F|[d' [l0 [r0 [l [r [I R]]]]]]]; [left; exact F|].
      right. exists d', l0, r0, l, r. split; [right; exact I | exact R].
    + apply halves_nonempty in Em. destruct Em as [Nl Nr].
      apply bind_Ok_inv in H. destruct H as [l [Hl H]].
      apply bind_Ok_inv in H. destruct H as [r [Hr H]].
      injection H as <-. right. exists d, left, right, l, r.
      repeat split; try assumption. left; reflexivity.
Qed.

Lemma raising_try_delimiters (text : str) (rec1 rec2 : str -> res (list str))
    (fallback1 : res (list str)) (fallback2 : list str) (delimiters : list str)
    (strings : list str) :
  (forall half out, rec1 half = Ok out -> rec2 half = Ok out) ->
  (fallback1 = Ok strings -> fallback2 = strings) ->
  Raising.try_delimiters T text rec1 fallback1 delimiters = Ok strings ->
  try_delimiters (accepted T) text rec2 fallback2 delimiters = Ok strings.
Proof.
  intros R F. induction delimiters as [|d ds IH];
    cbn [Raising.try_delimiters try_delimiters].
  - intros H. rewrite (F H). reflexivity.
  - intros H. apply bind_Ok_inv in H. destruct H as [[left right] [Hh H]].
    rewrite (raising_halved _ _ _ Hh). cbn [bind fst snd] in *.
    destruct (eqb left [] || eqb right []); [exact (IH H)|].
    apply bind_Ok_inv in H. destruct H as [l [Hl H]].
    apply bind_Ok_inv in H. destruct H as [r [Hr H]].
    rewrite (R _ _ Hl), (R _ _ Hr). exact H.
Qed.

Lemma raising_refines_fuel (fuel : nat) (subsection : list str * str)
    (max_tokens : Z) (model : str) (max_recursion : Z) (strings : list str) :
  Raising.split_strings_fuel T fuel subsection max_tokens model max_recursion =
  Ok strings ->
  split_strings_fuel (accepted T) fuel subsection max_tokens model max_recursion =
  Ok strings.
Proof.
  revert subsection max_recursion strings.
  induction fuel as [|fuel IH]; intros [titles text] max_recursion strings;
    [discriminate|].
  cbn [Raising.split_strings_fuel split_strings_fuel].
  intros H. apply bind_Ok_inv in H. destruct H as [n [Hn H]].
  apply raising_num_tokens in Hn. cbn zeta. rewrite Hn.
  destruct (n <=? max_tokens)%Z; [exact H|].
  destruct (max_recursion =? 0)%Z.
  - apply bind_Ok_inv in H. destruct H as [c [Hc H]].
    apply raising_truncated in Hc. rewrite Hc. exact H.
  - revert H. apply raising_try_delimiters.
    + intros half out. apply IH.
    + intros H. apply bind_Ok_inv in H. destruct H as [c [Hc H]].
      apply raising_truncated in Hc. rewrite Hc. injection H as <-. reflexivity.
Qed.

(** Whenever [split_strings_from_subsection] returns, it returns what the
    function over the accepted encoding computes: what is proved of that
    list holds of every list the code returns. *)
Lemma raising_refines (subsection : list str * str)
    (max_tokens : Z) (model : str) (max_recursion : Z) (strings : list str) :
  Raising.split_strings_from_subsection T subsection max_tokens model max_recursion =
  Ok strings ->
  split_strings_from_subsection (accepted T) subsection max_tokens model max_recursion =
  Ok strings.
Proof. apply raising_refines_fuel. Qed.

(** *** Where the tokenizer accepts every text, nothing is raised *)

Lemma accepts_num_tokens (text model : str) :
  Raising.accepts_all T model ->
  Raising.num_tokens T text model = Ok (num_tokens (accepted T) text model).
Proof.
  intros [enc [He Ha]].
  unfold Raising.num_tokens, Raising.encoding, Raising.encode_text, num_tokens, accepted.
  rewrite He. cbn [bind encode]. specialize (Ha text).
  destruct (try_encode enc text); [reflexivity | congruence].
Qed.

Lemma accepts_truncated (string model : str) (max_tokens : Z) :
  Raising.accepts_all T model ->
  Raising.truncated_string T string model max_tokens =
  Ok (truncated_string (accepted T) string model max_tokens).
Proof.
  intros [enc [He Ha]].
  unfold Raising.truncated_string, Raising.encoding, Raising.encode_text,
    truncated_string, accepted.
  rewrite He. cbn [bind encode decode]. specialize (Ha string).
  destruct (try_encode enc string); [reflexivity | congruence].
Qed.

Lemma accepts_halfway_scan (chunks : list str) (delimiter : str) (halfway : Z)
    (todo : list str) (i : nat) (best : Z) :
  Raising.accepts_all T GPT_MODEL ->
  Raising.halfway_scan T chunks delimiter halfway todo i best =
  Ok (halfway_scan (accepted T) chunks delimiter halfway todo i best).
Proof.
  intros A. revert i best; induction todo as [|c todo IH]; intros i best;
    cbn [Raising.halfway_scan halfway_scan]; [reflexivity|].
  rewrite (accepts_num_tokens _ _ A). cbn [bind]. cbn zeta.
  destruct (_ >=? best)%Z; [reflexivity | apply IH].
Qed.

Lemma accepts_halved (string delimiter : str) :
  Raising.accepts_all T GPT_MODEL ->
  Raising.halved_by_delimiter T string delimiter =
  halved_by_delimiter (accepted T) string delimiter.
Proof.
  intros A. unfold Raising.halved_by_delimiter, halved_by_delimiter.
  destruct (split string delimiter) as [chunks|e]; [|reflexivity]. cbn [bind].
  destruct chunks as [|a [|b [|c rest]]]; try reflexivity.
  rewrite (accepts_num_tokens _ _ A). cbn [bind].
  rewrite (accepts_halfway_scan _ _ _ _ _ _ A). reflexivity.
Qed.

Lemma accepts_try_delimiters (text : str) (rec1 rec2 : str -> res (list str))
    (fallback : list str) (delimiters : list str) :
  Raising.accepts_all T GPT_MODEL ->
  (forall half, rec1 half = rec2 half) ->
  Raising.try_delimiters T text rec1 (Ok fallback) delimiters =
  try_delimiters (accepted T) text rec2 fallback delimiters.
Proof.
  intros A R. induction delimiters as [|d ds IH];
    cbn [Raising.try_delimiters try_delimiters]; [reflexivity|].
  rewrite (accepts_halved _ _ A).
  destruct (halved_by_delimiter (accepted T) text d) as [[left right]|e]; [|reflexivity].
  cbn [bind fst snd].
  destruct (eqb left [] || eqb right []); [exact IH|].
  rewrite !R. reflexivity.
Qed.

Lemma accepts_split_strings_fuel (fuel : nat) (subsection : list str * str)
    (max_tokens : Z) (model : str) (max_recursion : Z) :
  Raising.accepts_all T GPT_MODEL -> Raising.accepts_all T model ->
  Raising.split_strings_fuel T fuel subsection max_tokens model max_recursion =
  split_strings_fuel (accepted T) fuel subsection max_tokens model max_recursion.
Proof.
  intros A Am. revert subsection max_recursion.
  induction fuel as [|fuel IH]; intros [titles text] max_recursion; [reflexivity|].
  cbn [Raising.split_strings_fuel split_strings_fuel].
  rewrite (accepts_num_tokens _ _ A). cbn [bind]. cbn zeta.
  destruct (_ <=? max_tokens)%Z; [reflexivity|].
  rewrite (accepts_truncated _ _ _ Am). cbn [bind].
  destruct (max_recursion =? 0)%Z; [reflexivity|].
  apply accepts_try_delimiters; [exact A|].
  intros half. apply IH.
Qed.

(** *** How a call ends *)

Lemma tokenizer_raised_bind {A B : Type} (m : res A) (k : A -> res B) :
  Raising.tokenizer_raised m -> Raising.tokenizer_raised (bind m k).
Proof. intros [->| ->]; [left | right]; reflexivity. Qed.

Lemma num_tokens_outcome (text model : str) :
  (exists n, Raising.num_tokens T text model = Ok n) \/
  Raising.tokenizer_raised (Raising.num_tokens T text model).
Proof.
  unfold Raising.num_tokens, Raising.encoding, Raising.encode_text.
  destruct (T model) as [enc|]; cbn [bind]; [|right; right; reflexivity].
  destruct (try_encode enc text); cbn [bind]; [left; eauto | right; left; reflexivity].
Qed.

Lemma truncated_string_outcome (string model : str) (max_tokens : Z) :
  (exists chunk, Raising.truncated_string T string model max_tokens = Ok chunk) \/
  Raising.tokenizer_raised (Raising.truncated_string T string model max_tokens).
Proof.
  unfold Raising.truncated_string, Raising.encoding, Raising.encode_text.
  destruct (T model) as [enc|]; cbn [bind]; [|right; right; reflexivity].
  destruct (try_encode enc string); cbn [bind]; [left; eauto | right; left; reflexivity].
Qed.

Lemma truncated_fallback_outcome (string model : str) (max_tokens : Z) :
  Raising.returns_or_raises
    (truncated <- Raising.truncated_string T string model max_tokens ;; Ok [truncated]).
Proof.
  destruct (truncated_string_outcome string model max_tokens) as [[c ->]|R].
  - left. exists [c]. split; [reflexivity | discriminate].
  - right. apply tokenizer_raised_bind. exact R.
Qed.

Lemma halfway_scan_outcome (chunks : list str) (delimiter : str) (halfway : Z)
    (todo : list str) (i : nat) (best : Z) :
  (exists k, Raising.halfway_scan T chunks delimiter halfway todo i best = Ok k) \/
  Raising.tokenizer_raised
    (Raising.halfway_scan T chunks delimiter halfway todo i best).
Proof.
  revert i best; induction todo as [|c todo IH]; intros i best;
    cbn [Raising.halfway_scan]; [left; eauto|].
  destruct (num_tokens_outcome (join delimiter (firstn (i + 1) chunks)) GPT_MODEL)
    as [[n ->]|R]; [|right; apply tokenizer_raised_bind; exact R].
  cbn [bind]. destruct (_ >=? best)%Z; [left; eauto | apply IH].
Qed.

(** With a non-empty delimiter [halved_by_delimiter] returns a pair, or
    raises what the tokenizer raised. *)
Lemma halved_outcome (string delimiter : str) :
  delimiter <> [] ->
  (exists halves, Raising.halved_by_delimiter T string delimiter = Ok halves) \/
  Raising.tokenizer_raised (Raising.halved_by_delimiter T string delimiter).
Proof.
  intros D. unfold Raising.halved_by_delimiter.
  rewrite (split_Ok string delimiter D).
  pose proof (split_loop_nonempty delimiter (length string) string) as N.
  destruct (split_loop (length string) string delimiter) as [|a [|b [|c rest]]];
    [congruence | | |]; cbn [bind]; [left; eauto | left; eauto |].
  destruct (num_tokens_outcome string GPT_MODEL) as [[n ->]|R];
    [|right; apply tokenizer_raised_bind; exact R].
  cbn [bind].
  destruct (halfway_scan_outcome (a :: b :: c :: rest) delimiter (n / 2)%Z
              (a :: b :: c :: rest) 0 (n / 2)%Z) as [[k ->]|R];
    [left; cbn [bind]; eauto | right; apply tokenizer_raised_bind; exact R].
Qed.


Lemma try_delimiters_outcome (text : str) (recurse : str -> res (list str))
    (fallback : res (list str)) (delimiters : list str) :
  Forall (fun d : str => d <> []) delimiters ->
  (forall half, length half < length text -> Raising.returns_or_raises (recurse half)) ->
  Raising.returns_or_raises fallback ->
  Raising.returns_or_raises
    (Raising.try_delimiters T text recurse fallback delimiters).
Proof.
  intros D R F. induction D as [|d ds Hd D IH]; cbn [Raising.try_delimiters];
    [exact F|].
  destruct (halved_outcome text d Hd) as [[[l r] Hh]|Rh];
    [|right; apply tokenizer_raised_bind; exact Rh].
  rewrite Hh. cbn [bind fst snd].
  destruct (eqb l [] || eqb r []) eqn:Em; [exact IH|].
  apply halves_nonempty in Em. destruct Em as [Nl Nr].
  destruct (halved_shorter (accepted T) _ _ _ _ (raising_halved _ _ _ Hh) Nl Nr)
    as [Sl Sr].
  destruct (R l Sl) as [[ls [-> Nls]]|Rl];
    [|right; apply tokenizer_raised_bind; exact Rl].
  cbn [bind].
  destruct (R r Sr) as [[rs [-> Nrs]]|Rr];
    [|right; apply tokenizer_raised_bind; exact Rr].
  cbn [bind]. left. exists (ls ++ rs). split; [reflexivity|].
  intros H. apply app_eq_nil in H. destruct H as [H _]. exact (Nls H).
Qed.

(** Termination on the length of the text: every recursive call is on a
    strictly shorter one, whatever [max_recursion] is. *)
Lemma split_strings_fuel_length (fuel : nat) (titles : list str) (text : str)
    (max_tokens : Z) (model : str) (max_recursion : Z) :
  length text < fuel ->
  Raising.returns_or_raises
    (Raising.split_strings_fuel T fuel (titles, text) max_tokens model max_recursion).
Proof.
  revert text max_recursion.
  induction fuel as [|fuel IH]; intros text max_recursion L; [lia|].
  cbn [Raising.split_strings_fuel].
  destruct (num_tokens_outcome (join PARAGRAPH (titles ++ [text])) GPT_MODEL)
    as [[n ->]|R]; [|right; apply tokenizer_raised_bind; exact R].
  cbn [bind].
  destruct (n <=? max_tokens)%Z.
  { left. eexists. split; [reflexivity | discriminate]. }
  destruct (max_recursion =? 0)%Z; [apply truncated_fallback_outcome|].
  apply try_delimiters_outcome;
    [exact delimiters_nonempty | | apply truncated_fallback_outcome].
  intros half Hh. apply IH. lia.
Qed.





(** The call ends, whatever its arguments. *)
Lemma split_strings_outcome (subsection : list str * str)
    (max_tokens : Z) (model : str) (max_recursion : Z) :
  Raising.returns_or_raises
    (Raising.split_strings_from_subsection T subsection max_tokens model max_recursion).
Proof.
  destruct subsection as [titles text].
  apply split_strings_fuel_length. cbn [snd]. lia.
Qed.

(** Where the tokenizer refuses nothing, the call returns. *)
Lemma split_strings_accepted (subsection : list str * str)
    (max_tokens : Z) (model : str) (max_recursion : Z) :
  Raising.accepts_all T GPT_MODEL -> Raising.accepts_all T model ->
  exists strings,
    Raising.split_strings_from_subsection T subsection max_tokens model max_recursion =
    Ok strings /\ strings <> [].
Proof.
  intros A Am. unfold Raising.split_strings_from_subsection.
  rewrite (accepts_split_strings_fuel _ _ _ _ _ A Am).
  destruct (split_strings_total (accepted T) subsection max_tokens model max_recursion)
    as [t [_ Hs]].
  exists (chunks_of t). split; [exact Hs | apply chunks_of_nonempty].
Qed.

(** *** The token ceiling *)

(** A string cut by [truncated_string] under the model that counted more
    than [max_tokens] tokens in it keeps exactly [max_tokens] tokens. *)
Lemma truncated_kept_within (string chunk : str) (max_tokens n : Z) :
  (0 <= max_tokens)%Z ->
  Raising.num_tokens T string GPT_MODEL = Ok n -> (max_tokens < n)%Z ->
  Raising.truncated_string T string GPT_MODEL max_tokens = Ok chunk ->
  Raising.kept_within T max_tokens chunk.
Proof.
  intros P Hn Hm Hc. right.
  unfold Raising.num_tokens, Raising.truncated_string,
    Raising.encoding, Raising.encode_text in Hn, Hc.
  destruct (T GPT_MODEL) as [enc|] eqn:He; [|discriminate]. cbn [bind] in Hn, Hc.
  destruct (try_encode enc string) as [tokens|] eqn:Ht; [|discriminate].
  cbn [bind] in Hn, Hc. injection Hn as <-. injection Hc as <-.
  exists enc, string, tokens.
  rewrite slice_to_firstn by exact P.
  repeat split; try assumption; try reflexivity.
  rewrite length_firstn. lia.
Qed.

Lemma split_strings_fuel_kept (fuel : nat) (subsection : list str * str)
    (max_tokens max_recursion : Z) (chunks : list str) :
  (0 <= max_tokens)%Z ->
  Raising.split_strings_fuel T fuel subsection max_tokens GPT_MODEL max_recursion =
  Ok chunks ->
  Forall (Raising.kept_within T max_tokens) chunks.
Proof.
  intros P. revert subsection max_recursion chunks.
  induction fuel as [|fuel IH]; intros [titles text] max_recursion chunks;
    [discriminate|].
  cbn [Raising.split_strings_fuel].
  intros H. apply bind_Ok_inv in H. destruct H as [n [Hn H]].
  assert (Tr : forall chunks',
            (truncated <- Raising.truncated_string T
                            (join PARAGRAPH (titles ++ [text])) GPT_MODEL max_tokens ;;
             Ok [truncated]) = Ok chunks' ->
            (max_tokens < n)%Z ->
            Forall (Raising.kept_within T max_tokens) chunks').
  { intros chunks' Hc Hm. apply bind_Ok_inv in Hc. destruct Hc as [c [Hc Hr]].
    injection Hr as <-. constructor; [|constructor].
    exact (truncated_kept_within _ _ _ _ P Hn Hm Hc). }
  destruct (Z.leb_spec n max_tokens) as [Le|Gt].
  - injection H as <-. constructor; [|constructor]. left. exists n. split; assumption.
  - destruct (max_recursion =? 0)%Z; [exact (Tr _ H Gt)|].
    apply raising_try_delimiters_inv in H.
    destruct H as [F|[d [left [right [ls [rs [_ [_ [_ [_ [Hl [Hr ->]]]]]]]]]]]].
    + exact (Tr _ F Gt).
    + apply Forall_app. split; [exact (IH _ _ _ Hl) | exact (IH _ _ _ Hr)].
Qed.

(** C1, as amended.  For every subsection, every [max_tokens >= 0] and every
    [max_recursion], each string [split_strings_from_subsection] returns
    (default [model]) either measures at most [max_tokens] tokens, or is the
    decoding of the first [max_tokens] tokens of a string that measured
    more: exactly [max_tokens] tokens were kept, which says nothing of how
    many the decoded text measures. *)
Theorem token_ceiling_kept (subsection : list str * str)
    (max_tokens max_recursion : Z) (chunks : list str) :
  (0 <= max_tokens)%Z ->
  Raising.split_strings_from_subsection T subsection max_tokens GPT_MODEL
    max_recursion = Ok chunks ->
  Forall (Raising.kept_within T max_tokens) chunks.
Proof. intros P. apply split_strings_fuel_kept. exact P. Qed.


(** X4.  [truncated_string] returns the decoding of a prefix of the tokens
    of the string: the first [max_tokens] of them, all of them when there
    are fewer; for a negative [max_tokens], all but the last [-max_tokens].
    It raises [KeyError] on a model the tokenizer does not know and
    [ValueError] on a string it refuses. *)
Theorem truncated_string_kept (string model : str) (max_tokens : Z) :
  match T model with
  | None => Raising.truncated_string T string model max_tokens = Raise KeyError
  | Some enc =>
      match try_encode enc string with
      | None => Raising.truncated_string T string model max_tokens = Raise ValueError
      | Some tokens =>
          exists kept dropped,
            tokens = kept ++ dropped /\
            Raising.truncated_string T string model max_tokens =
            Ok (decode_tokens enc kept) /\
            Z.of_nat (length kept) =
            if (max_tokens <? 0)%Z
            then Z.max 0 (Z.of_nat (length tokens) + max_tokens)
            else Z.min max_tokens (Z.of_nat (length tokens))
      end
  end.
Proof.
  unfold Raising.truncated_string, Raising.encoding, Raising.encode_text.
  destruct (T model) as [enc|]; [|reflexivity]. cbn [bind].
  destruct (try_encode enc string) as [tokens|]; [|reflexivity]. cbn [bind].
  unfold slice_to.
  destruct (Z.ltb_spec max_tokens 0) as [Neg|Pos].
  - exists (firstn (Z.to_nat (Z.of_nat (length tokens) + max_tokens)) tokens),
           (skipn (Z.to_nat (Z.of_nat (length tokens) + max_tokens)) tokens).
    split; [symmetry; apply firstn_skipn|]. split; [reflexivity|].
    rewrite length_firstn. lia.
  - exists (firstn (Z.to_nat max_tokens) tokens), (skipn (Z.to_nat max_tokens) tokens).
    split; [symmetry; apply firstn_skipn|]. split; [reflexivity|].
    rewrite length_firstn. lia.
Qed.

(** X6.  [split_strings_from_subsection] ends for every subsection,
    [max_tokens], [model] and [max_recursion], negative ones too, within
    [len(text) + 1] nested calls, each being on a strictly shorter text: it
    returns a list of at least one string, or raises the [ValueError] or
    [KeyError] the tokenizer raised, and nothing else. *)
Theorem split_strings_always_ends (subsection : list str * str)
    (max_tokens : Z) (model : str) (max_recursion : Z) :
  Raising.returns_or_raises
    (Raising.split_strings_fuel T (S (length (snd subsection))) subsection
       max_tokens model max_recursion) /\
  Raising.split_strings_from_subsection T subsection max_tokens model max_recursion =
  Raising.split_strings_fuel T (S (length (snd subsection))) subsection
    max_tokens model max_recursion.
Proof.
  split; [|reflexivity].
  destruct subsection as [titles text].
  apply split_strings_fuel_length. cbn [snd]. lia.
Qed.

(** *** The chunking of [setup.py] *)

Lemma qa_strings_of_outcome (qa_data : list (list str * str)) :
  (exists strings, Raising.qa_strings_of T qa_data = Ok strings /\
                   length qa_data <= length strings) \/
  Raising.tokenizer_raised (Raising.qa_strings_of T qa_data).
Proof.
  induction qa_data as [|section qa_data IH]; cbn [Raising.qa_strings_of].
  - left. exists []. split; [reflexivity | apply Nat.le_refl].
  - destruct (split_strings_outcome section MAX_TOKENS GPT_MODEL DEFAULT_MAX_RECURSION)
      as [[strings [-> N]]|R]; [|right; apply tokenizer_raised_bind; exact R].
    cbn [bind].
    destruct IH as [[more [-> L]]|R]; [|right; apply tokenizer_raised_bind; exact R].
    cbn [bind]. left. exists (strings ++ more). split; [reflexivity|].
    rewrite length_app. destruct strings; [congruence|]. cbn [length]. lia.
Qed.

Lemma qa_strings_of_accepted (qa_data : list (list str * str)) :
  Raising.accepts_all T GPT_MODEL ->
  exists strings, Raising.qa_strings_of T qa_data = Ok strings.
Proof.
  intros A. induction qa_data as [|section qa_data [more IH]];
    cbn [Raising.qa_strings_of]; [eauto|].
  destruct (split_strings_accepted section MAX_TOKENS GPT_MODEL DEFAULT_MAX_RECURSION
              A A) as [strings [-> _]].
  rewrite IH. cbn [bind]. eauto.
Qed.

Lemma qa_strings_of_kept (qa_data : list (list str * str)) (strings : list str) :
  Raising.qa_strings_of T qa_data = Ok strings ->
  Forall (Raising.kept_within T MAX_TOKENS) strings.
Proof.
  revert strings; induction qa_data as [|section qa_data IH]; intros strings;
    cbn [Raising.qa_strings_of].
  - intros [= <-]. constructor.
  - intros H. apply bind_Ok_inv in H. destruct H as [chunks [Hc H]].
    apply bind_Ok_inv in H. destruct H as [more [Hm H]]. injection H as <-.
    apply Forall_app. split; [|exact (IH _ Hm)].
    assert (P : (0 <= MAX_TOKENS)%Z) by (unfold MAX_TOKENS; lia).
    exact (split_strings_fuel_kept _ _ _ _ _ P Hc).
Qed.

(** A section the tokenizer refuses stops the loop: no list is returned. *)
Lemma qa_strings_of_refused (qa_data : list (list str * str))
    (titles : list str) (text : str) (enc : Tokenizer) :
  T GPT_MODEL = Some enc ->
  In (titles, text) qa_data ->
  try_encode enc (join PARAGRAPH (titles ++ [text])) = None ->
  Raising.tokenizer_raised (Raising.qa_strings_of T qa_data).
Proof.
  intros He I R. induction qa_data as [|section qa_data IH]; [destruct I|].
  cbn [Raising.qa_strings_of].
  destruct I as [->|I].
  - apply tokenizer_raised_bind. left.
    unfold Raising.split_strings_from_subsection. cbn [snd Raising.split_strings_fuel].
    unfold Raising.num_tokens, Raising.encoding, Raising.encode_text.
    rewrite He. cbn [bind]. rewrite R. reflexivity.
  - destruct (split_strings_outcome section MAX_TOKENS GPT_MODEL DEFAULT_MAX_RECURSION)
      as [[strings [-> N]]|Rs]; [|apply tokenizer_raised_bind; exact Rs].
    cbn [bind]. apply tokenizer_raised_bind. exact (IH I).
Qed.

(** X23.  One question and answer pair the tokenizer refuses (its questions
    and answer, joined by blank lines, spell a special token) makes the loop
    that fills [qa_strings] raise: the script gets no string at all, also
    none of the pairs before it. *)
Theorem qa_strings_all_or_nothing (U : Ucd) (lines : list str)
    (sections : list (str * list str)) (questions : list str) (answer : str)
    (enc : Tokenizer) :
  split_into_sections U lines = Ok sections ->
  T GPT_MODEL = Some enc ->
  In (questions, answer) (qa_data_of (split_into_qa_pairs sections)) ->
  try_encode enc (join PARAGRAPH (questions ++ [answer])) = None ->
  Raising.tokenizer_raised (Raising.setup_qa_strings T U lines).
Proof.
  intros S He I R. unfold Raising.setup_qa_strings. rewrite S. cbn [bind].
  exact (qa_strings_of_refused _ _ _ _ He I R).
Qed.

(** X18.  Once the transcript is split into sections, the loop that fills
    [qa_strings] ends: it returns at least one string for every question
    and answer pair, or raises the [ValueError] or [KeyError] the tokenizer
    raised; it returns whenever the tokenizer knows [GPT_MODEL] and refuses
    no text. *)
Theorem setup_qa_strings_ends (U : Ucd) (lines : list str)
    (sections : list (str * list str)) :
  split_into_sections U lines = Ok sections ->
  let out := Raising.setup_qa_strings T U lines in
  ((exists strings,
      out = Ok strings /\
      length (qa_data_of (split_into_qa_pairs sections)) <= length strings) \/
   Raising.tokenizer_raised out) /\
  (Raising.accepts_all T GPT_MODEL -> exists strings, out = Ok strings).
Proof.
  intros S out. subst out. unfold Raising.setup_qa_strings. rewrite S. cbn [bind].
  split; [apply qa_strings_of_outcome | apply qa_strings_of_accepted].
Qed.

(** X19.  Every string [setup.py] gets in [qa_strings] measures at most
    [MAX_TOKENS = 1600] tokens, or is the decoding of the first 1600 tokens
    of a longer string. *)
Theorem setup_qa_strings_kept (U : Ucd) (lines : list str) (strings : list str) :
  Raising.setup_qa_strings T U lines = Ok strings ->
  Forall (Raising.kept_within T MAX_TOKENS) strings.
Proof.
  unfold Raising.setup_qa_strings. intros H.
  apply bind_Ok_inv in H. destruct H as [sections [_ H]].
  exact (qa_strings_of_kept _ _ H).
Qed.

End RaisingFacts.

(** Two spaces before a digit, cut to two tokens: the string returned is
    the decoding of the two tokens kept. *)
Lemma token_ceiling_kept_witness :
  Forall (Raising.kept_within tiktoken_excerpt 2) [lit "  "].
Proof.
  apply (token_ceiling_kept tiktoken_excerpt ([], lit "  1") 2 5 [lit "  "]).
  - lia.
  - reflexivity.
Defined.

(** C1 as worded fails.  Under [cl100k_base] the string of two spaces and
    the digit 1 measures three tokens; with [max_tokens = 2] no delimiter
    splits it and the truncation fallback returns the decoding of its first
    two tokens, two spaces, which measure one token, not [max_tokens]. *)
Lemma token_ceiling_counterexample :
  chunking_of (accepted tiktoken_excerpt) ([], lit "  1") 2 GPT_MODEL 5 =
    Ok (Truncated (lit "  1") (lit "  ")) /\
  Raising.split_strings_from_subsection tiktoken_excerpt ([], lit "  1") 2 GPT_MODEL 5 =
    Ok [lit "  "] /\
  Raising.num_tokens tiktoken_excerpt (lit "  1") GPT_MODEL = Ok 3%Z /\
  Raising.num_tokens tiktoken_excerpt (lit "  ") GPT_MODEL = Ok 1%Z /\
  Raising.num_tokens tiktoken_excerpt (lit "  ") GPT_MODEL <> Ok 2%Z.
Proof. repeat split; try reflexivity. discriminate. Qed.



Lemma truncated_string_kept_witness :
  exists kept dropped,
    [220; 220; 16]%Z = kept ++ dropped /\
    Raising.truncated_string tiktoken_excerpt (lit "  1") GPT_MODEL 2 =
    Ok (decode_tokens cl100k_excerpt kept) /\
    Z.of_nat (length kept) = 2%Z.
Proof.
  exact (truncated_string_kept tiktoken_excerpt (lit "  1") GPT_MODEL 2).
Defined.

Lemma qa_strings_all_or_nothing_witness :
  Raising.tokenizer_raised
    (Raising.setup_qa_strings tiktoken_excerpt ascii_ucd
       [line "1"; line "<Q> a"; line "x"; line "<Q> b"; line "<|endoftext|>";
        line "2"]).
Proof.
  apply (qa_strings_all_or_nothing tiktoken_excerpt ascii_ucd
           [line "1"; line "<Q> a"; line "x"; line "<Q> b"; line "<|endoftext|>";
            line "2"]
           [(lit "1", [line "<Q> a"; line "x"; line "<Q> b"; line "<|endoftext|>"])]
           [line "b"] (line "<|endoftext|>") cl100k_excerpt).
  - reflexivity.
  - reflexivity.
  - right. left. reflexivity.
  - reflexivity.
Defined.

Lemma setup_qa_strings_ends_witness :
  let out := Raising.setup_qa_strings char_tokenizers ascii_ucd example_lines in
  ((exists strings,
      out = Ok strings /\
      length (qa_data_of (split_into_qa_pairs
                [(lit "1", [line "<Q> What is 2+2?"; line "4"])])) <= length strings) \/
   Raising.tokenizer_raised out) /\
  (Raising.accepts_all char_tokenizers GPT_MODEL -> exists strings, out = Ok strings).
Proof.
  apply (setup_qa_strings_ends char_tokenizers ascii_ucd example_lines
           [(lit "1", [line "<Q> What is 2+2?"; line "4"])]).
  reflexivity.
Defined.

Lemma setup_qa_strings_kept_witness :
  Forall (Raising.kept_within char_tokenizers MAX_TOKENS)
    [line "What is 2+2?" ++ PARAGRAPH ++ line "4"].
Proof.
  apply (setup_qa_strings_kept char_tokenizers ascii_ucd example_lines).
  reflexivity.
Defined.
